(** * Subtitle cleaning pipeline of [scripts/clean_subtitle.py]

    A shallow embedding of [SubtitleCleaner]: segment extraction from the
    parsed JSON3 document, removal of consecutive duplicates, merging of
    short segments, paragraph formatting and text cleanup, together with
    the theorems that relate the code to its specification.

    Python strings are sequences of Unicode code points, so a string is a
    list of code points here.  The regular expressions of the program are
    kept as data and run by a small backtracking matcher that follows the
    semantics of Python's [re] module for the constructs the program uses. *)

From Stdlib Require Import String Ascii NArith ZArith Bool Lia List.
Import ListNotations.


(* ================================================================= *)
(** ** Python strings *)

Module PyStr.

(** A code point, and a [str] as the sequence of its code points. *)
Definition cp := N.
Definition pystr := list cp.

(** A string literal of the program (ASCII only). *)
Definition lit (s : string) : pystr :=
  List.map N_of_ascii (list_ascii_of_string s).

Local Open Scope N_scope.

Definition in_range (lo hi c : cp) : bool := (lo <=? c) && (c <=? hi).

(** [==] on [str]. *)
Fixpoint eqb (a b : pystr) : bool :=
  match a, b with
  | [], [] => true
  | x :: a', y :: b' => (x =? y) && eqb a' b'
  | _, _ => false
  end.

(** [str.isspace] on one character, which is also what [\s] matches in a
    [str] pattern: the code points CPython lists as whitespace. *)
Definition isspace (c : cp) : bool :=
  in_range 9 13 c || in_range 28 32 c || (c =? 133) || (c =? 160)
  || (c =? 5760) || in_range 8192 8202 c || (c =? 8232)
  || (c =? 8233) || (c =? 8239) || (c =? 8287) || (c =? 12288).

Definition is_ascii (c : cp) : bool := c <? 128.
Definition ascii_upper (c : cp) : bool := in_range 65 90 c.
Definition ascii_lower (c : cp) : bool := in_range 97 122 c.
Definition ascii_digit (c : cp) : bool := in_range 48 57 c.

(** [[a-zA-Z0-9]]. *)
Definition latin_alnum (c : cp) : bool :=
  ascii_lower c || ascii_upper c || ascii_digit c.

(** [sep.join(parts)]. *)
Fixpoint join (sep : pystr) (parts : list pystr) : pystr :=
  match parts with
  | [] => []
  | [p] => p
  | p :: rest => p ++ sep ++ join sep rest
  end.

(** [s.lstrip()], [s.rstrip()] and [s.strip()] without argument. *)
Fixpoint lstrip (s : pystr) : pystr :=
  match s with
  | c :: s' => if isspace c then lstrip s' else s
  | [] => []
  end.

Definition rstrip (s : pystr) : pystr := rev (lstrip (rev s)).

Definition strip (s : pystr) : pystr := rstrip (lstrip s).

(** Truth value of a [str]: non-empty. *)
Definition truthy (s : pystr) : bool :=
  match s with [] => false | _ :: _ => true end.

Fixpoint starts_with (p s : pystr) : bool :=
  match p, s with
  | [], _ => true
  | x :: p', y :: s' => (x =? y) && starts_with p' s'
  | _ :: _, [] => false
  end.

(** [needle in hay] for two strings. *)
Fixpoint contains (needle hay : pystr) : bool :=
  starts_with needle hay
  || match hay with
     | [] => false
     | _ :: hay' => contains needle hay'
     end.

(** [s.endswith(('.', '?', '!'))] and the like: the last character
    belongs to the class [p]. *)
Definition ends_in (p : cp -> bool) (s : pystr) : bool :=
  match rev s with
  | c :: _ => p c
  | [] => false
  end.

Definition lower_ascii_char (c : cp) : cp :=
  if ascii_upper c then c + 32 else c.

End PyStr.
Import PyStr.

(* ================================================================= *)
(** ** Regular expressions, as far as the program uses them *)

Module Re.

(** The patterns of the program are built from one-character classes,
    concatenation, a greedy [+] and a lazy [*?] on a class, numbered
    groups, and a one-character look-behind. *)
Inductive re : Type :=
| Cls (p : cp -> bool)
| Cat (r1 r2 : re)
| Plus (p : cp -> bool)
| LazyStar (p : cp -> bool)
| Grp (i : nat) (r : re)
| Behind (p : cp -> bool).

(** The matcher's position: the character to the left, the text to the
    right, the number of characters consumed since the match began and
    the groups captured so far. *)
Record mstate : Type := MState {
  m_prev : option cp;
  m_rest : pystr;
  m_len : nat;
  m_caps : list (nat * pystr)
}.

Definition kont := mstate -> option mstate.

(** [p+] after its first character: take as many as possible, give one
    back at a time while the rest of the pattern fails. *)
Fixpoint greedy (p : cp -> bool) (s : pystr) (prev : option cp) (n : nat)
         (caps : list (nat * pystr)) (k : kont) : option mstate :=
  match s with
  | c :: s' =>
      if p c then
        match greedy p s' (Some c) (S n) caps k with
        | Some m => Some m
        | None => k (MState prev s n caps)
        end
      else k (MState prev s n caps)
  | [] => k (MState prev s n caps)
  end.

(** [p*?]: try the rest of the pattern first, take one more character
    only when it fails. *)
Fixpoint lazy_star (p : cp -> bool) (s : pystr) (prev : option cp) (n : nat)
         (caps : list (nat * pystr)) (k : kont) : option mstate :=
  match k (MState prev s n caps) with
  | Some m => Some m
  | None =>
      match s with
      | c :: s' => if p c then lazy_star p s' (Some c) (S n) caps k else None
      | [] => None
      end
  end.

Fixpoint run (r : re) (st : mstate) (k : kont) : option mstate :=
  match r with
  | Cls p =>
      match m_rest st with
      | c :: s' =>
          if p c then k (MState (Some c) s' (S (m_len st)) (m_caps st))
          else None
      | [] => None
      end
  | Cat r1 r2 => run r1 st (fun st' => run r2 st' k)
  | Plus p =>
      match m_rest st with
      | c :: s' =>
          if p c then greedy p s' (Some c) (S (m_len st)) (m_caps st) k
          else None
      | [] => None
      end
  | LazyStar p => lazy_star p (m_rest st) (m_prev st) (m_len st) (m_caps st) k
  | Grp i r1 =>
      run r1 st (fun st' =>
        k (MState (m_prev st') (m_rest st') (m_len st')
             ((i, firstn (m_len st' - m_len st) (m_rest st)) :: m_caps st')))
  | Behind p =>
      match m_prev st with
      | Some c => if p c then k st else None
      | None => None
      end
  end.

(** A match that begins at the current position.  With [must_advance]
    (set by [sub] and [split] right after an empty match) an empty match
    is refused. *)
Definition match_at (r : re) (prev : option cp) (s : pystr)
           (must_advance : bool) : option mstate :=
  run r (MState prev s 0 [])
      (fun st => if must_advance && Nat.eqb (m_len st) 0 then None
                 else Some st).

(** Replacement templates: literal text and group references [\1]. *)
Inductive titem : Type :=
| TLit (s : pystr)
| TRef (i : nat).

Fixpoint group (i : nat) (caps : list (nat * pystr)) : pystr :=
  match caps with
  | [] => []
  | (j, s) :: caps' => if Nat.eqb i j then s else group i caps'
  end.

Definition expand (t : list titem) (m : mstate) : pystr :=
  concat (List.map (fun it => match it with
                              | TLit s => s
                              | TRef i => group i (m_caps m)
                              end) t).

(** [re.sub(r, t, s)]: the leftmost match is replaced and the search goes
    on after it; [skip] counts the characters of the current match still
    to be passed over. *)
Fixpoint sub_from (r : re) (t : list titem) (prev : option cp) (s : pystr)
         (skip : nat) : pystr :=
  match s with
  | [] =>
      match skip with
      | O => match match_at r prev [] false with
             | Some m => expand t m
             | None => []
             end
      | S _ => []
      end
  | c :: s' =>
      match skip with
      | S n => sub_from r t (Some c) s' n
      | O =>
          match match_at r prev s false with
          | None => c :: sub_from r t (Some c) s' 0
          | Some m =>
              expand t m ++
              match m_len m with
              | S n => sub_from r t (Some c) s' n
              | O =>
                  match match_at r prev s true with
                  | Some m' =>
                      expand t m' ++ sub_from r t (Some c) s' (pred (m_len m'))
                  | None => c :: sub_from r t (Some c) s' 0
                  end
              end
          end
      end
  end.

Definition sub (r : re) (t : list titem) (s : pystr) : pystr :=
  sub_from r t None s 0.

(** [re.split(r, s)] for a pattern without groups; [cur] is the piece
    being collected, in reverse. *)
Fixpoint split_from (r : re) (prev : option cp) (s : pystr) (skip : nat)
         (cur : pystr) : list pystr :=
  match s with
  | [] =>
      match skip with
      | O => match match_at r prev [] false with
             | Some _ => [rev cur; []]
             | None => [rev cur]
             end
      | S _ => [rev cur]
      end
  | c :: s' =>
      match skip with
      | S n => split_from r (Some c) s' n cur
      | O =>
          match match_at r prev s false with
          | None => split_from r (Some c) s' 0 (c :: cur)
          | Some m =>
              rev cur ::
              match m_len m with
              | S n => split_from r (Some c) s' n []
              | O =>
                  match match_at r prev s true with
                  | Some m' =>
                      [] :: split_from r (Some c) s' (pred (m_len m')) []
                  | None => split_from r (Some c) s' 0 [c]
                  end
              end
          end
      end
  end.

Definition split (r : re) (s : pystr) : list pystr :=
  split_from r None s 0 [].

End Re.
Import Re.

(* ================================================================= *)
(** ** Exceptions and the cleaner's state *)

Inductive pyexc : Type :=
| ValueError
| TypeError
| AttributeError
| KeyError
| ReError
| OSError.

Inductive result (A : Type) : Type :=
| Ok (a : A)
| Raise (e : pyexc).
Arguments Ok {A} a.
Arguments Raise {A} e.

(** [self.stats], without the wall-clock [processing_time]. *)
Record stats : Type := Stats {
  original_segments : nat;
  processed_segments : nat;
  removed_duplicates_count : nat;
  removed_timestamps : nat;
  total_characters : nat;
  total_words : nat
}.

(** [SubtitleCleaner.__init__]. *)
Definition init_stats : stats := Stats 0 0 0 0 0 0.

Definition set_original_segments (n : nat) (s : stats) : stats :=
  Stats n (processed_segments s) (removed_duplicates_count s)
        (removed_timestamps s) (total_characters s) (total_words s).

Definition set_removed_duplicates (n : nat) (s : stats) : stats :=
  Stats (original_segments s) (processed_segments s) n
        (removed_timestamps s) (total_characters s) (total_words s).

Definition set_totals (segs chars words : nat) (s : stats) : stats :=
  Stats (original_segments s) segs (removed_duplicates_count s)
        (removed_timestamps s) chars words.

(** Methods of the cleaner read and write [self.stats] and may raise. *)
Definition M (A : Type) : Type := stats -> result A * stats.

Definition ret {A} (a : A) : M A := fun s => (Ok a, s).
Definition raise {A} (e : pyexc) : M A := fun s => (Raise e, s).
Definition bind {A B} (m : M A) (k : A -> M B) : M B :=
  fun s => match m s with
           | (Ok a, s') => k a s'
           | (Raise e, s') => (Raise e, s')
           end.
Definition lift {A} (r : result A) : M A := fun s => (r, s).
Definition modify (f : stats -> stats) : M unit := fun s => (Ok tt, f s).

Declare Scope py_scope.
Delimit Scope py_scope with py.
Notation "x <- m ;; k" := (bind m (fun x => k))
  (at level 61, m at next level, right associativity) : py_scope.
Notation "m ;;; k" := (bind m (fun _ => k))
  (at level 61, right associativity) : py_scope.

(** Expressions that may raise but do not touch [self]. *)
Definition rbind {A B} (r : result A) (k : A -> result B) : result B :=
  match r with
  | Ok a => k a
  | Raise e => Raise e
  end.
Notation "x <~ r ;; k" := (rbind r (fun x => k))
  (at level 61, r at next level, right associativity) : py_scope.

(** A [for] loop whose body may raise. *)
Fixpoint for_each {A B} (body : B -> A -> result B) (items : list A) (acc : B)
  : result B :=
  match items with
  | [] => Ok acc
  | x :: rest =>
      match body acc x with
      | Ok acc' => for_each body rest acc'
      | Raise e => Raise e
      end
  end.

(* ================================================================= *)
(** ** The parsed JSON3 document *)

(** What [json.load] returns.  A [dict] keeps its keys in insertion order
    and holds each key once. *)
#[warnings="-register-all"]
Inductive json : Type :=
| JNull
| JBool (b : bool)
| JInt (n : Z)
| JFloat (mantissa exponent : Z)
| JStr (s : pystr)
| JArr (items : list json)
| JObj (fields : list (pystr * json)).

Fixpoint lookup (key : pystr) (fields : list (pystr * json)) : option json :=
  match fields with
  | [] => None
  | (k, v) :: rest => if eqb k key then Some v else lookup key rest
  end.

Definition is_str (key : pystr) (v : json) : bool :=
  match v with
  | JStr s => eqb s key
  | _ => false
  end.

(** [key in v] for a [str] key. *)
Definition py_in (key : pystr) (v : json) : result bool :=
  match v with
  | JObj fields => Ok (match lookup key fields with Some _ => true | None => false end)
  | JArr items => Ok (existsb (is_str key) items)
  | JStr s => Ok (contains key s)
  | _ => Raise TypeError
  end.

(** [v[key]] for a [str] key. *)
Definition py_getitem (v : json) (key : pystr) : result json :=
  match v with
  | JObj fields =>
      match lookup key fields with
      | Some x => Ok x
      | None => Raise KeyError
      end
  | _ => Raise TypeError
  end.

(** [len(v)]. *)
Definition py_len (v : json) : result nat :=
  match v with
  | JArr items => Ok (length items)
  | JObj fields => Ok (length fields)
  | JStr s => Ok (length s)
  | _ => Raise TypeError
  end.

(** The values a [for] loop over [v] visits. *)
Definition py_iter (v : json) : result (list json) :=
  match v with
  | JArr items => Ok items
  | JObj fields => Ok (map (fun kv => JStr (fst kv)) fields)
  | JStr s => Ok (map (fun c => JStr [c]) s)
  | _ => Raise TypeError
  end.

(** [v.get(key, [])]. *)
Definition py_get (v : json) (key : pystr) : result json :=
  match v with
  | JObj fields =>
      match lookup key fields with
      | Some x => Ok x
      | None => Ok (JArr [])
      end
  | _ => Raise AttributeError
  end.

(** [v.strip()]. *)
Definition py_strip (v : json) : result pystr :=
  match v with
  | JStr s => Ok (strip s)
  | _ => Raise AttributeError
  end.

(* ================================================================= *)
(** ** SubtitleCleaner *)

Open Scope string_scope.
Open Scope list_scope.
Open Scope nat_scope.
Open Scope py_scope.

Definition key_events : pystr := lit "events".
Definition key_segs : pystr := lit "segs".
Definition key_utf8 : pystr := lit "utf8".
Definition space : pystr := lit " ".

(** *** load_json3_file, after [json.load] *)

(** The check on the parsed document and the [len(data['events'])] of the
    log line that follows it. *)
Definition load_json3_file (data : json) : M json :=
  has <- lift (py_in key_events data) ;;
  if negb has then raise ValueError
  else
    events <- lift (py_getitem data key_events) ;;
    _ <- lift (py_len events) ;;
    ret data.

(** *** extract_text_segments *)

(** Body of the inner loop.  [seg['utf8'].strip()] is evaluated once here,
    the code evaluates it for the test and again for the [append]. *)
Definition extract_seg (segments : list pystr) (seg : json)
  : result (list pystr) :=
  has <~ py_in key_utf8 seg ;;
  if has then
    v <~ py_getitem seg key_utf8 ;;
    s <~ py_strip v ;;
    if truthy s then Ok (segments ++ [s]) else Ok segments
  else Ok segments.

(** Body of the outer loop. *)
Definition extract_event (segments : list pystr) (event : json)
  : result (list pystr) :=
  has <~ py_in key_segs event ;;
  if has then
    segs <~ py_getitem event key_segs ;;
    items <~ py_iter segs ;;
    for_each extract_seg items segments
  else Ok segments.

Definition extract_text_segments (data : json) : M (list pystr) :=
  events <- lift (py_get data key_events) ;;
  items <- lift (py_iter events) ;;
  segments <- lift (for_each extract_event items []) ;;
  modify (set_original_segments (length segments)) ;;;
  ret segments.

(** *** remove_duplicates *)

(** One round of [for i in range(1, len(segments))]: the state is
    [(cleaned, duplicates_removed)]. *)
Definition remove_duplicates_step (segments : list pystr)
           (acc : list pystr * nat) (i : nat) : list pystr * nat :=
  let '(cleaned, duplicates_removed) := acc in
  if negb (eqb (nth i segments []) (nth (i - 1) segments []))
  then (cleaned ++ [nth i segments []], duplicates_removed)
  else (cleaned, S duplicates_removed).

Definition remove_duplicates (segments : list pystr) : M (list pystr) :=
  match segments with
  | [] => ret segments
  | first :: _ =>
      let '(cleaned, duplicates_removed) :=
        fold_left (remove_duplicates_step segments)
                  (seq 1 (length segments - 1)) ([first], 0) in
      modify (set_removed_duplicates duplicates_removed) ;;;
      ret cleaned
  end.

(** *** merge_consecutive_segments *)

(** The [while i < len(segments)] loop.  Every round advances [i], so
    [len(segments)] rounds are enough; [fuel] bounds the rounds. *)
Fixpoint merge_loop (fuel : nat) (segments : list pystr) (min_length : Z)
         (i : nat) (merged : list pystr) : list pystr :=
  match fuel with
  | O => merged
  | S fuel' =>
      if i <? length segments then
        let current := nth i segments [] in
        if (Z.of_nat (length current) <? min_length)%Z
           && (i + 1 <? length segments)
        then merge_loop fuel' segments min_length (i + 2)
               (merged ++ [current ++ space ++ nth (i + 1) segments []])
        else merge_loop fuel' segments min_length (i + 1)
               (merged ++ [current])
      else merged
  end.

Definition merge_consecutive_segments (segments : list pystr) (min_length : Z)
  : list pystr :=
  match segments with
  | [] => segments
  | _ :: _ => merge_loop (length segments) segments min_length 0 []
  end.

(** *** Character classes and patterns of the program *)

Definition chr (a : ascii) : cp -> bool := N.eqb (N_of_ascii a).

(** [[.!?]]. *)
Definition sentence_end (c : cp) : bool :=
  chr "." c || chr "!" c || chr "?" c.

(** [.] without [re.DOTALL]: any character but the line feed. *)
Definition dot (c : cp) : bool := negb (N.eqb c 10%N).

(** [[\u4e00-\u9fff]]. *)
Definition cjk (c : cp) : bool := in_range 19968%N 40959%N c.

(** [[\u3040-\u309f\u30a0-\u30ff\u4e00-\u9fff]]. *)
Definition kana_or_cjk (c : cp) : bool :=
  in_range 12352%N 12447%N c || in_range 12448%N 12543%N c || cjk c.

(** [\s+] *)
Definition re_spaces : re := Plus isspace.
(** [\s+([.!?])] *)
Definition re_space_before_end : re := Cat (Plus isspace) (Grp 1 (Cls sentence_end)).
(** [(?<=[.!?])\s+] *)
Definition re_sentence_gap : re := Cat (Behind sentence_end) (Plus isspace).
(** [\[.*?\]], [\(.*?\)] and [<.*?>] *)
Definition re_span (opener closer : ascii) : re :=
  Cat (Cls (chr opener)) (Cat (LazyStar dot) (Cls (chr closer))).
(** [(a)\s+(b)] and [(a)(b)] for two classes *)
Definition re_spaced_pair (a b : cp -> bool) : re :=
  Cat (Grp 1 (Cls a)) (Cat (Plus isspace) (Grp 2 (Cls b))).
Definition re_pair (a b : cp -> bool) : re :=
  Cat (Grp 1 (Cls a)) (Grp 2 (Cls b)).

(** The templates [\1], [\1\2] and [\1 \2]. *)
Definition t_1 : list titem := [TRef 1].
Definition t_12 : list titem := [TRef 1; TRef 2].
Definition t_1_2 : list titem := [TRef 1; TLit space; TRef 2].

(** *** _language_specific_cleaning *)

(** The class of the ['ko'] pattern reads, in the source file,
    U+00EA U+00B0 U+20AC - U+00ED U+017E U+00A3: a range whose ends are
    in descending order, which [re] refuses when it compiles the
    pattern. *)
Definition language_specific_cleaning (text language_code : pystr)
  : result pystr :=
  if eqb language_code (lit "zh") then
    let text := sub (re_spaced_pair cjk cjk) t_12 text in
    let text := sub (re_pair cjk latin_alnum) t_1_2 text in
    let text := sub (re_pair latin_alnum cjk) t_1_2 text in
    Ok text
  else if eqb language_code (lit "ja") then
    Ok (sub (re_spaced_pair kana_or_cjk kana_or_cjk) t_12 text)
  else if eqb language_code (lit "ko") then
    Raise ReError
  else Ok text.

(** *** clean_text *)

(** The three span removals, in the order of the code. *)
Definition remove_spans (text : pystr) : pystr :=
  let text := sub (re_span "[" "]") [] text in
  let text := sub (re_span "(" ")") [] text in
  sub (re_span "<" ">") [] text.

(** [re.sub(r'\s+', ' ', text)]. *)
Definition normalize_whitespace (text : pystr) : pystr :=
  sub re_spaces [TLit space] text.

Definition clean_text (text : pystr) (language_code : option pystr)
  : result pystr :=
  let text := remove_spans text in
  let text := normalize_whitespace text in
  let text := strip text in
  match language_code with
  | Some code =>
      if truthy code then language_specific_cleaning text code else Ok text
  | None => Ok text
  end.

(** [text.split()]: the maximal runs of characters that are not
    whitespace; [cur] is the run being read, in reverse. *)
Fixpoint split_words (s : pystr) (cur : pystr) : list pystr :=
  match s with
  | [] => if truthy cur then [rev cur] else []
  | c :: s' =>
      if isspace c then
        if truthy cur then rev cur :: split_words s' [] else split_words s' []
      else split_words s' (c :: cur)
  end.

(** *** format_paragraphs and process_file *)

(** What the Unicode database decides outside ASCII: whether a character
    is alphanumeric, and the lower-case form of a string. *)
Record unicode_db : Type := UnicodeDb {
  uni_isalnum : cp -> bool;
  uni_lower : pystr -> pystr
}.

(** The options [process_file] reads from its keyword arguments. *)
Record options : Type := Options {
  opt_merge_duplicates : bool;
  opt_min_segment_length : Z;
  opt_format_paragraphs : bool;
  opt_language_code : option pystr
}.

Definition default_options : options := Options true 10 true None.

(** What lies outside the program in a run of [process_file]: what
    [open] and [json.load] give for the input file (the parsed document
    or the exception they raise), and whether [_save_output_file] raises
    for the text it is given.  The directories and the file the write
    creates are not modelled. *)
Record file_system : Type := FileSystem {
  fs_load : result json;
  fs_save : pystr -> result unit
}.

Definition paragraph_sep : pystr := [10%N; 10%N].

Definition indicators : list pystr :=
  [lit "however"; lit "therefore"; lit "moreover"; lit "furthermore"].

Section Cleaner.

Variable ucd : unicode_db.

(** [\w] in a [str] pattern: alphanumeric or the underscore. *)
Definition word_char (c : cp) : bool :=
  if is_ascii c then latin_alnum c || chr "_" c
  else uni_isalnum ucd c.

(** [s.lower()]. *)
Definition lower (s : pystr) : pystr :=
  if forallb is_ascii s then map lower_ascii_char s else uni_lower ucd s.

(** [([.!?])(\w)] *)
Definition re_end_then_word : re := re_pair sentence_end word_char.

(** The test that closes a paragraph; [current_paragraph] already holds
    [sentence]. *)
Definition closes_paragraph (current_paragraph : list pystr)
           (sentence : pystr) : bool :=
  (3 <=? length current_paragraph)
  && (ends_in sentence_end sentence
      || existsb (fun indicator => contains indicator (lower sentence))
                 indicators).

(** One round of [for sentence in sentences]: the state is
    [(paragraphs, current_paragraph)]. *)
Definition paragraph_step (acc : list pystr * list pystr) (sentence : pystr)
  : list pystr * list pystr :=
  let '(paragraphs, current_paragraph) := acc in
  let sentence := strip sentence in
  if truthy sentence then
    let current_paragraph := current_paragraph ++ [sentence] in
    if closes_paragraph current_paragraph sentence
    then (paragraphs ++ [join space current_paragraph], [])
    else (paragraphs, current_paragraph)
  else (paragraphs, current_paragraph).

(** The text handed to [re.split]. *)
Definition punctuated_text (segments : list pystr) : pystr :=
  let text := join space segments in
  let text := sub re_space_before_end t_1 text in
  sub re_end_then_word t_1_2 text.

(** Step (c): the sentences [re.split] returns. *)
Definition split_sentences (segments : list pystr) : list pystr :=
  split re_sentence_gap (punctuated_text segments).

Definition paragraphs_of (sentences : list pystr) : list pystr :=
  let '(paragraphs, current_paragraph) :=
    fold_left paragraph_step sentences ([], []) in
  match current_paragraph with
  | [] => paragraphs
  | _ :: _ => paragraphs ++ [join space current_paragraph]
  end.

Definition format_paragraphs (segments : list pystr) : pystr :=
  join paragraph_sep (paragraphs_of (split_sentences segments)).

(** [process_file] between [json.load] and the write of the output file:
    the cleaned text, or the exception the [try] catches. *)
Definition process_data (data : json) (o : options) : M pystr :=
  data <- load_json3_file data ;;
  segments <- extract_text_segments data ;;
  segments <- (if opt_merge_duplicates o then remove_duplicates segments
               else ret segments) ;;
  let segments :=
    if (0 <? opt_min_segment_length o)%Z
    then merge_consecutive_segments segments (opt_min_segment_length o)
    else segments in
  let text :=
    if opt_format_paragraphs o then format_paragraphs segments
    else join space segments in
  text <- lift (clean_text text (opt_language_code o)) ;;
  modify (set_totals (length segments) (length text)
                     (length (split_words text []))) ;;;
  ret text.

(** *** _save_output_file *)

(** The write re-raises whatever [mkdir], [open] or [f.write] raise. *)
Definition save_output_file (fs : file_system) (content : pystr) : M unit :=
  lift (fs_save fs content).

(** [process_file], without the clock: the body of the [try] from the
    reading of the input file to the write of the output file, which
    comes after the statistics of lines 236-238 are recorded.  The result
    is the text written, or the exception the [except] clause catches. *)
Definition process_file (fs : file_system) (o : options) : M pystr :=
  data <- lift (fs_load fs) ;;
  text <- process_data data o ;;
  save_output_file fs text ;;;
  ret text.

(** The ['success'] entry of what [process_file] returns. *)
Definition process_succeeds (fs : file_system) (o : options) (self : stats)
  : bool :=
  match fst (process_file fs o self) with
  | Ok _ => true
  | Raise _ => false
  end.

End Cleaner.

(** A database that knows no alphanumeric and no cased character outside
    ASCII.  It is used to run the code on ASCII text, where the database
    is not consulted. *)
Definition ascii_db : unicode_db := UnicodeDb (fun _ => false) (fun s => s).

(* ================================================================= *)
(** ** The specification's Deduplicator *)

(** Section 4.2 of the specification, in its own words: the first
    fragment is kept; each later fragment is kept only if it differs from
    the immediately preceding kept fragment.  The result is the kept
    fragments and the number of removed ones. *)
Fixpoint spec_dedup_after (last_kept : pystr) (fragments : list pystr)
  : list pystr * nat :=
  match fragments with
  | [] => ([], 0)
  | x :: rest =>
      if eqb x last_kept then
        let '(kept, removed) := spec_dedup_after last_kept rest in
        (kept, S removed)
      else
        let '(kept, removed) := spec_dedup_after x rest in
        (x :: kept, removed)
  end.

Definition spec_deduplicate (fragments : list pystr) : list pystr * nat :=
  match fragments with
  | [] => ([], 0)
  | first :: rest =>
      let '(kept, removed) := spec_dedup_after first rest in
      (first :: kept, removed)
  end.

(* ================================================================= *)
(** ** The loops, read as recursion on the list *)

(** [remove_duplicates] after its first element: every element is compared
    with its neighbour to the left in the input. *)
Fixpoint dedup_after (previous : pystr) (rest : list pystr)
  : list pystr * nat :=
  match rest with
  | [] => ([], 0)
  | x :: rest' =>
      let '(cleaned, removed) := dedup_after x rest' in
      if eqb x previous then (cleaned, S removed) else (x :: cleaned, removed)
  end.

(** [merge_consecutive_segments] from the cursor on. *)
Fixpoint merge_from (min_length : Z) (segments : list pystr) : list pystr :=
  match segments with
  | [] => []
  | current :: tl =>
      match tl with
      | [] => [current]
      | next :: rest =>
          if (Z.of_nat (length current) <? min_length)%Z
          then (current ++ space ++ next) :: merge_from min_length rest
          else current :: merge_from min_length tl
      end
  end.

(** The paragraph loop with the paragraphs kept as lists of sentences. *)
Section Groups.

Variable ucd : unicode_db.

Definition group_step (acc : list (list pystr) * list pystr)
           (sentence : pystr) : list (list pystr) * list pystr :=
  let '(groups, current_paragraph) := acc in
  let sentence := strip sentence in
  if truthy sentence then
    let current_paragraph := current_paragraph ++ [sentence] in
    if closes_paragraph ucd current_paragraph sentence
    then (groups ++ [current_paragraph], [])
    else (groups, current_paragraph)
  else (groups, current_paragraph).

Definition paragraph_groups (sentences : list pystr) : list (list pystr) :=
  let '(groups, current_paragraph) :=
    fold_left group_step sentences ([], []) in
  match current_paragraph with
  | [] => groups
  | _ :: _ => groups ++ [current_paragraph]
  end.

End Groups.

(* ================================================================= *)
(** ** The substitutions, read as recursion on the text *)

(** The continuation that ends a match ([must_advance] unset), and the
    continuation of [.*?] in a span pattern: the closer, then the end of
    the match. *)
Definition accept : kont :=
  fun st => if false && Nat.eqb (m_len st) 0 then None else Some st.

Definition after_lazy (closer : ascii) : kont :=
  fun st => run (Cls (chr closer)) st (fun st' => Some st').

(** The distance from the start of the text to the first [closer], when
    no line feed comes before it: what [.*?] followed by the closer
    matches. *)
Fixpoint find_closer (closer : ascii) (s : pystr) : option nat :=
  match s with
  | [] => None
  | c :: s' =>
      if chr closer c then Some 0
      else if dot c then option_map S (find_closer closer s')
      else None
  end.

Definition found (o : option nat) : bool :=
  match o with Some _ => true | None => false end.

(** The text has an [opener] and, later on the same line, a [closer]. *)
Fixpoint line_span (opener closer : ascii) (s : pystr) : bool :=
  match s with
  | [] => false
  | c :: s' =>
      (chr opener c && found (find_closer closer s'))
      || line_span opener closer s'
  end.

(** What [re.sub] with the pattern of a span and the empty replacement
    computes: [skip] characters of the span found last are still to be
    dropped. *)
Fixpoint drop_spans (opener closer : ascii) (s : pystr) (skip : nat) : pystr :=
  match s with
  | [] => []
  | c :: s' =>
      match skip with
      | S n => drop_spans opener closer s' n
      | O =>
          if chr opener c then
            match find_closer closer s' with
            | Some n => drop_spans opener closer s' (S n)
            | None => c :: drop_spans opener closer s' 0
            end
          else c :: drop_spans opener closer s' 0
      end
  end.

(** [r] is [s] with some characters other than line feeds left out. *)
Inductive keeps_lines : pystr -> pystr -> Prop :=
| kl_nil : keeps_lines [] []
| kl_keep : forall c r s, keeps_lines r s -> keeps_lines (c :: r) (c :: s)
| kl_drop : forall c r s, dot c = true -> keeps_lines r s -> keeps_lines r (c :: s).

(** The length of the longest prefix of [s] in the class [p]. *)
Fixpoint prefix_len (p : cp -> bool) (s : pystr) : nat :=
  match s with
  | c :: s' => if p c then S (prefix_len p s') else 0
  | [] => 0
  end.

(** What [re.sub(r'\s+', ' ', s)] computes: [skip] characters of the run
    of whitespace found last are still to be dropped. *)
Fixpoint collapse_from (s : pystr) (skip : nat) : pystr :=
  match s with
  | [] => []
  | c :: s' =>
      match skip with
      | S n => collapse_from s' n
      | O =>
          if isspace c
          then space ++ collapse_from s' (prefix_len isspace s')
          else c :: collapse_from s' 0
      end
  end.

(** The literal characters of a replacement template. *)
Definition template_chars (t : list titem) : pystr :=
  concat (map (fun it => match it with TLit s => s | TRef _ => [] end) t).

(** The text to the right of the matcher and every captured group are
    made of characters of [s0]. *)
Definition within (s0 : pystr) (st : mstate) : Prop :=
  incl (m_rest st) s0 /\
  forall i t, In (i, t) (m_caps st) -> incl t s0.

(* ================================================================= *)
(** ** Trimmed texts and the fragments of a run *)

(** A text that begins with a character other than whitespace, one that
    ends with such a character, and one that does both: a non-empty text
    that [strip] leaves as it is. *)
Definition starts_clean (s : pystr) : bool :=
  match s with
  | c :: _ => negb (isspace c)
  | [] => false
  end.

Definition ends_clean (s : pystr) : bool := starts_clean (rev s).

Definition tidy (s : pystr) : bool := starts_clean s && ends_clean s.

(** [process_file] up to the fragments it hands to [format_paragraphs]. *)
Definition prepared_segments (data : json) (o : options) : M (list pystr) :=
  data <- load_json3_file data ;;
  segments <- extract_text_segments data ;;
  segments <- (if opt_merge_duplicates o then remove_duplicates segments
               else ret segments) ;;
  ret (if (0 <? opt_min_segment_length o)%Z
       then merge_consecutive_segments segments (opt_min_segment_length o)
       else segments).

(** Every match of [r] is non-empty and lies within the text, and its
    replacement by [t] ends with the last character of the match. *)
Definition replacement_keeps_end (r : re) (t : list titem) : Prop :=
  forall prev s adv m,
    match_at r prev s adv = Some m ->
    1 <= m_len m /\ m_len m <= length s /\
    exists o, expand t m = o ++ [nth (m_len m - 1) s 0%N].

(** The continuation of [\s+] in [\s+([.!?])]. *)
Definition end_group (adv : bool) : kont :=
  fun st => run (Grp 1 (Cls sentence_end)) st
              (fun st' => if adv && Nat.eqb (m_len st') 0 then None else Some st').

(** The state of [split_from] between two steps: the text still to come
    ends with a character other than whitespace; while a match is being
    passed over, nothing is collected and what is left of the match is a
    whole run of whitespace; otherwise either nothing is collected and
    the next character is not whitespace, or what is collected begins
    with such a character and ends with the character to the left. *)
Definition split_state (prev : option cp) (s : pystr) (skip : nat)
           (cur : pystr) : Prop :=
  ends_clean (rev cur ++ s) = true /\
  match skip with
  | S _ => cur = [] /\ skip = prefix_len isspace s
  | O =>
      (cur = [] /\ starts_clean s = true) \/
      (exists p cur', cur = p :: cur' /\ prev = Some p /\
                      starts_clean (rev cur) = true)
  end.

(* ================================================================= *)
(** ** Spaces between two scripts *)

(** The text with one space put between every character of the class [a]
    and a character of the class [b] that follows it directly. *)
Fixpoint space_between (a b : cp -> bool) (s : pystr) : pystr :=
  match s with
  | [] => []
  | c :: s' =>
      match s' with
      | d :: _ =>
          if a c && b d then c :: 32%N :: space_between a b s'
          else c :: space_between a b s'
      | [] => [c]
      end
  end.

(** Some character of the class [a] is directly followed by one of the
    class [b]. *)
Fixpoint adjacent (a b : cp -> bool) (s : pystr) : bool :=
  match s with
  | [] => false
  | c :: s' =>
      match s' with
      | d :: _ => (a c && b d) || adjacent a b s'
      | [] => false
      end
  end.

(* ================================================================= *)
(** ** Predicates of the statements *)

(** A fragment shorter than the threshold. *)
Definition short (min_length : Z) (s : pystr) : Prop :=
  (Z.of_nat (length s) < min_length)%Z.

(** [x] is a short input fragment joined to its successor. *)
Definition merged_pair (min_length : Z) (segments : list pystr) (x : pystr)
  : Prop :=
  exists i a b,
    nth_error segments i = Some a /\ nth_error segments (S i) = Some b /\
    short min_length a /\ x = a ++ space ++ b.

(** [x], at index [j] of the output, is the last input fragment, left
    unmerged at the end of the output. *)
Definition final_remainder (segments out : list pystr) (j : nat) (x : pystr)
  : Prop :=
  S j = length out /\ nth_error segments (length segments - 1) = Some x.

(** No two neighbours of the list are equal. *)
Definition no_adjacent_equal (l : list pystr) : Prop :=
  forall i a b, nth_error l i = Some a -> nth_error l (S i) = Some b -> a <> b.

(** The text has an [opener] with a [closer] somewhere after it. *)
Fixpoint has_span (opener closer : ascii) (text : pystr) : bool :=
  match text with
  | [] => false
  | c :: rest =>
      (chr opener c && existsb (chr closer) rest) || has_span opener closer rest
  end.

(** Documents of the expected shape: the event list is a list of objects;
    an event has no fragment list or a list of objects; a fragment has no
    text field or a string. *)
Definition conforming_seg (seg : json) : bool :=
  match seg with
  | JObj fields =>
      match lookup key_utf8 fields with
      | None | Some (JStr _) => true
      | Some _ => false
      end
  | _ => false
  end.

Definition conforming_event (event : json) : bool :=
  match event with
  | JObj fields =>
      match lookup key_segs fields with
      | None => true
      | Some (JArr segs) => forallb conforming_seg segs
      | Some _ => false
      end
  | _ => false
  end.

Definition conforming_document (data : json) : bool :=
  match data with
  | JObj fields =>
      match lookup key_events fields with
      | Some (JArr events) => forallb conforming_event events
      | _ => false
      end
  | _ => false
  end.

(** The text a fragment and an event contribute. *)
Definition seg_texts (seg : json) : list pystr :=
  match seg with
  | JObj fields =>
      match lookup key_utf8 fields with
      | Some (JStr s) => if truthy (strip s) then [strip s] else []
      | _ => []
      end
  | _ => []
  end.

Definition event_texts (event : json) : list pystr :=
  match event with
  | JObj fields =>
      match lookup key_segs fields with
      | Some (JArr segs) => flat_map seg_texts segs
      | _ => []
      end
  | _ => []
  end.

Definition document_events (data : json) : list json :=
  match data with
  | JObj fields =>
      match lookup key_events fields with
      | Some (JArr events) => events
      | _ => []
      end
  | _ => []
  end.

(* ================================================================= *)
(** ** Documents and fragments of the examples *)

(** The document is a [dict] with the key ['events']. *)
Definition has_event_list (data : json) : bool :=
  match data with
  | JObj fields =>
      match lookup key_events fields with
      | Some _ => true
      | None => false
      end
  | _ => false
  end.

Definition example_events (events : list json) : json :=
  JObj [(key_events, JArr events)].

(** An event with one fragment whose text field is the number 5. *)
Definition event_with_number : json :=
  JObj [(key_segs, JArr [JObj [(key_utf8, JInt 5)]])].

(** An event without fragment list, and an event whose first fragment has
    no text field. *)
Definition event_without_segs : json := JObj [(lit "tStartMs", JInt 0)].
Definition event_with_texts : json :=
  JObj [(key_segs,
         JArr [JObj [(lit "acAsrConf", JInt 0)];
               JObj [(key_utf8, JStr (lit " Hello. "))];
               JObj [(key_utf8, JStr (lit "  "))]])].

(** A fragment object with its text field. *)
Definition fragment (text : pystr) : json := JObj [(key_utf8, JStr text)].

Definition four_sentences : list pystr :=
  [lit "One."; lit "Two."; lit "Three."; lit "Four."].

Definition options_without_paragraphs : options := Options true 10 false None.

(** A cleaner that has been used once: [self.stats] after
    [remove_duplicates(['a', 'a'])] on a new cleaner. *)
Definition used_stats : stats :=
  snd (remove_duplicates [lit "a"; lit "a"] init_stats).

(** A document with one repeated fragment, and one without fragments. *)
Definition document_with_repeat : json :=
  example_events [JObj [(key_segs, JArr [fragment (lit "a"); fragment (lit "a")])]].
Definition document_without_fragments : json := example_events [].

(** A file system that gives the document [data] and accepts every
    write, and one that gives it and refuses every write. *)
Definition writable (data : json) : file_system :=
  FileSystem (Ok data) (fun _ => Ok tt).
Definition read_only (data : json) : file_system :=
  FileSystem (Ok data) (fun _ => Raise OSError).

(* ================================================================= *)
(** ** Predicates of the further properties *)

(** [out] is [l] with some elements left out, the others in order. *)
Inductive subsequence : list pystr -> list pystr -> Prop :=
| subseq_nil : subsequence [] []
| subseq_keep : forall x out l, subsequence out l -> subsequence (x :: out) (x :: l)
| subseq_skip : forall x out l, subsequence out l -> subsequence out (x :: l).

(** Every element of the list but the last satisfies [P]. *)
Fixpoint all_but_last {A : Type} (P : A -> Prop) (l : list A) : Prop :=
  match l with
  | [] => True
  | x :: rest =>
      match rest with
      | [] => True
      | _ :: _ => P x /\ all_but_last P rest
      end
  end.

(** The options with another minimum segment length. *)
Definition with_min_segment_length (m : Z) (o : options) : options :=
  Options (opt_merge_duplicates o) m (opt_format_paragraphs o)
          (opt_language_code o).

(** The list cut into groups of three, the last group holding what is
    left. *)
Fixpoint chunk3 {A : Type} (l : list A) : list (list A) :=
  match l with
  | [] => []
  | a :: l1 =>
      match l1 with
      | [] => [[a]]
      | b :: l2 =>
          match l2 with
          | [] => [[a; b]]
          | c :: rest => [a; b; c] :: chunk3 rest
          end
      end
  end.

(** What the paragraph loop returns after its last round. *)
Definition close_groups (acc : list (list pystr) * list pystr)
  : list (list pystr) :=
  match snd acc with
  | [] => fst acc
  | _ :: _ => fst acc ++ [snd acc]
  end.

(** The state of [split_from] between two steps, as far as the end of
    the piece being collected goes: a sentence-ending character to the
    left is the last character collected, and what is passed over is
    whitespace. *)
Definition gap_state (prev : option cp) (s : pystr) (skip : nat)
           (cur : pystr) : Prop :=
  match skip with
  | O => forall p, prev = Some p -> sentence_end p = true ->
                   exists cur', cur = p :: cur'
  | S _ => skip <= prefix_len isspace s
  end.

(** The first character of the text is in the class [b]. *)
Definition first_in (b : cp -> bool) (s : pystr) : bool :=
  match s with
  | c :: _ => b c
  | [] => false
  end.

(** The continuation of [\s+] in [(a)\s+(b)]: the group [i] on the class
    [b], then the end of the match. *)
Definition class_group (i : nat) (b : cp -> bool) (adv : bool) : kont :=
  fun st => run (Grp i (Cls b)) st
              (fun st' => if adv && Nat.eqb (m_len st') 0 then None else Some st').

(* ================================================================= *)
(** ** Strings and lists *)

Lemma eqb_eq : forall a b : pystr, eqb a b = true <-> a = b.
Proof.
  induction a as [|x a IH]; destruct b as [|y b]; simpl; split;
    try discriminate; try reflexivity.
  - intros H. apply andb_true_iff in H. destruct H as [Hxy Hab].
    apply N.eqb_eq in Hxy. apply IH in Hab. congruence.
  - intros H. injection H as -> ->. rewrite N.eqb_refl. simpl.
    apply IH. reflexivity.
Qed.

Lemma eqb_refl : forall a : pystr, eqb a a = true.
Proof. intros a. apply eqb_eq. reflexivity. Qed.

Lemma eqb_neq : forall a b : pystr, eqb a b = false <-> a <> b.
Proof.
  intros a b. split.
  - intros H E. apply eqb_eq in E. congruence.
  - intros H. destruct (eqb a b) eqn:E; [|reflexivity].
    apply eqb_eq in E. contradiction.
Qed.

Lemma nth_middle_app : forall (pre rest : list pystr) (x : pystr),
  nth (length pre) (pre ++ x :: rest) [] = x.
Proof. induction pre; simpl; auto. Qed.

Lemma join_cons : forall (sep p : pystr) (rest : list pystr),
  join sep (p :: rest) =
  p ++ match rest with [] => [] | _ :: _ => sep ++ join sep rest end.
Proof.
  intros sep p [|q rest]; simpl.
  - rewrite app_nil_r. reflexivity.
  - reflexivity.
Qed.

(** Induction that follows a cursor moving by one or by two. *)
Lemma list_ind_two : forall (A : Type) (P : list A -> Prop),
  P [] ->
  (forall x, P [x]) ->
  (forall x y l, P l -> P (y :: l) -> P (x :: y :: l)) ->
  forall l, P l.
Proof.
  intros A P H0 H1 H2.
  assert (forall l, P l /\ forall x, P (x :: l)) as H.
  { induction l as [|y l [IH IHx]].
    - split; auto.
    - split; auto. }
  intros l. apply H.
Qed.

(* ================================================================= *)
(** ** remove_duplicates *)

(** The indexed loop computes [dedup_after]. *)
Lemma remove_duplicates_loop : forall rest pre x cleaned removed,
  fold_left (remove_duplicates_step (pre ++ x :: rest))
            (seq (S (length pre)) (length rest)) (cleaned, removed) =
  (cleaned ++ fst (dedup_after x rest), removed + snd (dedup_after x rest)).
Proof.
  induction rest as [|y rest IH]; intros pre x cleaned removed.
  - simpl. rewrite app_nil_r, Nat.add_0_r. reflexivity.
  - cbn [length seq fold_left].
    assert (nth (S (length pre)) (pre ++ x :: y :: rest) [] = y) as Hy.
    { replace (pre ++ x :: y :: rest) with ((pre ++ [x]) ++ y :: rest)
        by (rewrite <- app_assoc; reflexivity).
      replace (S (length pre)) with (length (pre ++ [x]))
        by (rewrite length_app; simpl; lia).
      apply nth_middle_app. }
    assert (nth (S (length pre) - 1) (pre ++ x :: y :: rest) [] = x) as Hx.
    { replace (S (length pre) - 1) with (length pre) by lia.
      apply nth_middle_app. }
    unfold remove_duplicates_step at 2. rewrite Hy, Hx.
    replace (pre ++ x :: y :: rest) with ((pre ++ [x]) ++ y :: rest)
      by (rewrite <- app_assoc; reflexivity).
    replace (S (S (length pre))) with (S (length (pre ++ [x])))
      by (rewrite length_app; simpl; lia).
    cbn [dedup_after].
    destruct (dedup_after y rest) as [out n] eqn:E.
    destruct (eqb y x); cbn [negb fst snd].
    + rewrite IH, E. cbn [fst snd]. f_equal. lia.
    + rewrite IH, E. cbn [fst snd]. rewrite <- app_assoc. reflexivity.
Qed.

Lemma remove_duplicates_cons : forall x rest self,
  remove_duplicates (x :: rest) self =
  (Ok (x :: fst (dedup_after x rest)),
   set_removed_duplicates (snd (dedup_after x rest)) self).
Proof.
  intros x rest self. unfold remove_duplicates.
  replace (length (x :: rest) - 1) with (length rest) by (simpl; lia).
  pose proof (remove_duplicates_loop rest [] x [x] 0) as H.
  cbn [app length] in H. rewrite H. reflexivity.
Qed.

Lemma dedup_after_spec : forall rest x,
  dedup_after x rest = spec_dedup_after x rest.
Proof.
  induction rest as [|y rest IH]; intros x; cbn [dedup_after spec_dedup_after].
  - reflexivity.
  - destruct (eqb y x) eqn:E.
    + apply eqb_eq in E. subst y. rewrite IH.
      destruct (spec_dedup_after x rest). reflexivity.
    + rewrite IH. destruct (spec_dedup_after y rest). reflexivity.
Qed.

Lemma dedup_after_length : forall rest x,
  length (fst (dedup_after x rest)) + snd (dedup_after x rest) = length rest.
Proof.
  induction rest as [|y rest IH]; intros x; cbn [dedup_after].
  - reflexivity.
  - specialize (IH y). destruct (dedup_after y rest) as [out n].
    destruct (eqb y x); cbn [fst snd length] in *; lia.
Qed.

Lemma dedup_after_distinct : forall rest x,
  no_adjacent_equal (x :: fst (dedup_after x rest)).
Proof.
  induction rest as [|y rest IH]; intros x; cbn [dedup_after].
  - intros i a b Ha Hb. destruct i; simpl in Hb; [discriminate|].
    destruct i; discriminate.
  - specialize (IH y). destruct (dedup_after y rest) as [out n] eqn:E.
    cbn [fst] in IH.
    destruct (eqb y x) eqn:Exy; cbn [fst].
    + apply eqb_eq in Exy. subst y. exact IH.
    + apply eqb_neq in Exy.
      intros [|i] a b Ha Hb; simpl in Ha, Hb.
      * injection Ha as <-. injection Hb as <-. congruence.
      * apply (IH i a b); assumption.
Qed.

Lemma dedup_after_fixed : forall rest x,
  dedup_after x (fst (dedup_after x rest)) = (fst (dedup_after x rest), 0).
Proof.
  induction rest as [|y rest IH]; intros x; cbn [dedup_after].
  - reflexivity.
  - pose proof (IH y) as IHy.
    destruct (dedup_after y rest) as [out n] eqn:E. cbn [fst] in IHy.
    destruct (eqb y x) eqn:Exy; cbn [fst].
    + apply eqb_eq in Exy. subst y. exact IHy.
    + cbn [dedup_after]. rewrite IHy, Exy. reflexivity.
Qed.

(** C3: the implementation (which compares every fragment with its left
    neighbour in the input) returns the fragments the specification's
    Deduplicator keeps (which compares with the last kept fragment), and
    three identical fragments in a row collapse to one; for every input
    with at least one fragment it records the Deduplicator's number of
    removed fragments.  For the input without fragments it returns
    before the counter is written: a cleaner that has removed one
    duplicate still shows 1 after the call, where the Deduplicator
    removes 0. *)
Theorem remove_duplicates_count_survives_empty_input :
  forall (segments : list pystr) (self : stats),
    fst (remove_duplicates segments self)
      = Ok (fst (spec_deduplicate segments)) /\
    (segments <> [] ->
     removed_duplicates_count (snd (remove_duplicates segments self))
       = snd (spec_deduplicate segments)) /\
    (forall x : pystr,
        fst (remove_duplicates [x; x; x] self) = Ok [x] /\
        spec_deduplicate [x; x; x] = ([x], 2)) /\
    removed_duplicates_count used_stats = 1 /\
    removed_duplicates_count (snd (remove_duplicates [] used_stats)) = 1 /\
    snd (spec_deduplicate []) = 0.
Proof.
  intros segments self. split; [|split; [|split]].
  - destruct segments as [|x rest]; [reflexivity|].
    rewrite remove_duplicates_cons. cbn [fst spec_deduplicate].
    rewrite <- dedup_after_spec.
    destruct (dedup_after x rest). reflexivity.
  - destruct segments as [|x rest]; [intros H; contradiction|]. intros _.
    rewrite remove_duplicates_cons. cbn [snd spec_deduplicate].
    rewrite <- dedup_after_spec.
    destruct (dedup_after x rest). reflexivity.
  - intros x. split.
    + rewrite remove_duplicates_cons. cbn [dedup_after fst].
      rewrite eqb_refl. reflexivity.
    + cbn [spec_deduplicate spec_dedup_after]. rewrite eqb_refl. reflexivity.
  - split; [reflexivity|]. split; reflexivity.
Qed.

(** C7: the Deduplicator returns a list, and applied to that list it
    returns it unchanged: running it twice equals running it once. *)
Theorem remove_duplicates_idempotent :
  forall (segments : list pystr) (self self' : stats),
    exists out,
      fst (remove_duplicates segments self) = Ok out /\
      fst (remove_duplicates out self') = Ok out.
Proof.
  intros [|x rest] self self'.
  - exists []. split; reflexivity.
  - exists (x :: fst (dedup_after x rest)).
    rewrite !remove_duplicates_cons. cbn [fst].
    rewrite dedup_after_fixed. split; reflexivity.
Qed.

(** C8: the Deduplicator's output is no longer than its input and has no
    two adjacent equal elements, and for an input with at least one
    fragment the recorded count is the number of fragments that went
    away.  The empty input gives the empty output, but the count is not
    set to zero: the early return leaves [self.stats] as it is.  So a
    cleaner that runs [process_file] on a document with a repeated
    fragment and then on a document without fragments reports one
    removed duplicate for the second, although a one-fragment input
    resets the count. *)
Theorem remove_duplicates_empty_input_keeps_count :
  forall (segments : list pystr) (self : stats),
    exists out,
      fst (remove_duplicates segments self) = Ok out /\
      length out <= length segments /\
      no_adjacent_equal out /\
      (segments <> [] ->
       removed_duplicates_count (snd (remove_duplicates segments self))
       + length out = length segments) /\
      remove_duplicates [] self = (Ok [], self) /\
      removed_duplicates_count
        (snd (process_file ascii_db (writable document_with_repeat)
                default_options init_stats)) = 1 /\
      removed_duplicates_count
        (snd (process_file ascii_db (writable document_without_fragments)
                default_options
                (snd (process_file ascii_db (writable document_with_repeat)
                        default_options init_stats)))) = 1 /\
      original_segments
        (snd (process_file ascii_db (writable document_without_fragments)
                default_options
                (snd (process_file ascii_db (writable document_with_repeat)
                        default_options init_stats)))) = 0 /\
      removed_duplicates_count
        (snd (remove_duplicates [lit "a"] used_stats)) = 0.
Proof.
  intros [|x rest] self.
  - exists []. split; [reflexivity|]. split; [apply Nat.le_refl|]. split.
    + intros i a b Ha. destruct i; discriminate.
    + split; [intros H; contradiction|]. split; [reflexivity|].
      repeat split.
  - exists (x :: fst (dedup_after x rest)).
    rewrite remove_duplicates_cons. cbn [fst snd].
    pose proof (dedup_after_length rest x) as Hlen.
    split; [reflexivity|]. split; [simpl; lia|]. split.
    + apply dedup_after_distinct.
    + split; [intros _; simpl; lia|]. split; [reflexivity|].
      repeat split.
Qed.

(* ================================================================= *)
(** ** merge_consecutive_segments *)

(** With at least as much fuel as fragments to the right of the cursor,
    the loop runs to its end and computes [merge_from]. *)
Lemma merge_loop_from : forall fuel min_length pre rest merged,
  length rest <= fuel ->
  merge_loop fuel (pre ++ rest) min_length (length pre) merged =
  merged ++ merge_from min_length rest.
Proof.
  induction fuel as [|fuel IH]; intros min_length pre rest merged Hfuel.
  - destruct rest; [|simpl in Hfuel; lia].
    simpl. rewrite app_nil_r. reflexivity.
  - cbn [merge_loop]. destruct rest as [|c tl].
    + rewrite app_nil_r, Nat.ltb_irrefl. simpl. rewrite app_nil_r. reflexivity.
    + assert ((length pre <? length (pre ++ c :: tl)) = true) as Hlt.
      { apply Nat.ltb_lt. rewrite length_app. simpl. lia. }
      rewrite Hlt, nth_middle_app. simpl in Hfuel.
      destruct tl as [|n rest'].
      * assert ((length pre + 1 <? length (pre ++ [c])) = false) as Hend.
        { apply Nat.ltb_ge. rewrite length_app. simpl. lia. }
        rewrite Hend, andb_false_r.
        replace (length pre + 1) with (length (pre ++ [c]))
          by (rewrite length_app; reflexivity).
        rewrite <- (app_nil_r (pre ++ [c])) at 1.
        rewrite IH by (simpl; lia).
        simpl. rewrite app_nil_r. reflexivity.
      * assert ((length pre + 1 <? length (pre ++ c :: n :: rest')) = true)
          as Hnext.
        { apply Nat.ltb_lt. rewrite length_app. simpl. lia. }
        rewrite Hnext, andb_true_r. cbn [merge_from].
        destruct (Z.of_nat (length c) <? min_length)%Z.
        -- assert (nth (length pre + 1) (pre ++ c :: n :: rest') [] = n) as Hn.
           { replace (pre ++ c :: n :: rest') with ((pre ++ [c]) ++ n :: rest')
               by (rewrite <- app_assoc; reflexivity).
             replace (length pre + 1) with (length (pre ++ [c]))
               by (rewrite length_app; reflexivity).
             apply nth_middle_app. }
           rewrite Hn.
           replace (pre ++ c :: n :: rest') with ((pre ++ [c; n]) ++ rest')
             by (rewrite <- app_assoc; reflexivity).
           replace (length pre + 2) with (length (pre ++ [c; n]))
             by (rewrite length_app; reflexivity).
           rewrite IH by (simpl in Hfuel; lia).
           rewrite <- app_assoc. reflexivity.
        -- replace (pre ++ c :: n :: rest') with ((pre ++ [c]) ++ n :: rest')
             by (rewrite <- app_assoc; reflexivity).
           replace (length pre + 1) with (length (pre ++ [c]))
             by (rewrite length_app; reflexivity).
           rewrite IH by (simpl in *; lia).
           rewrite <- app_assoc. reflexivity.
Qed.

Lemma merge_consecutive_segments_from : forall segments min_length,
  merge_consecutive_segments segments min_length = merge_from min_length segments.
Proof.
  intros [|x rest] min_length; [reflexivity|].
  unfold merge_consecutive_segments.
  apply (merge_loop_from (length (x :: rest)) min_length [] (x :: rest) []).
  lia.
Qed.

Lemma merge_from_two : forall min_length x y l,
  merge_from min_length (x :: y :: l) =
  if (Z.of_nat (length x) <? min_length)%Z
  then (x ++ space ++ y) :: merge_from min_length l
  else x :: merge_from min_length (y :: l).
Proof. reflexivity. Qed.

Lemma merge_from_nil : forall min_length l,
  merge_from min_length l = [] -> l = [].
Proof.
  intros min_length [|x [|y l]]; simpl; try discriminate; auto.
  destruct (Z.of_nat (length x) <? min_length)%Z; discriminate.
Qed.

Lemma merge_from_length : forall min_length l,
  length (merge_from min_length l) <= length l.
Proof.
  intros min_length. apply list_ind_two.
  - simpl. lia.
  - intros x. simpl. lia.
  - intros x y l IHl IHyl. rewrite merge_from_two.
    destruct (Z.of_nat (length x) <? min_length)%Z; simpl length in *; lia.
Qed.

Lemma merge_from_join : forall min_length l,
  join space (merge_from min_length l) = join space l.
Proof.
  intros min_length. apply list_ind_two.
  - reflexivity.
  - reflexivity.
  - intros x y l IHl IHyl. rewrite merge_from_two.
    destruct (Z.of_nat (length x) <? min_length)%Z.
    + rewrite (join_cons space x (y :: l)), (join_cons space y l).
      rewrite join_cons, IHl.
      destruct (merge_from min_length l) eqn:E.
      * apply merge_from_nil in E. subst l.
        rewrite ?app_nil_r, <- ?app_assoc. reflexivity.
      * destruct l as [|z l]; [discriminate|].
        rewrite <- ?app_assoc. reflexivity.
    + rewrite (join_cons space x (y :: l)), join_cons, IHyl.
      destruct (merge_from min_length (y :: l)) eqn:E.
      * apply merge_from_nil in E. discriminate.
      * reflexivity.
Qed.

Lemma merge_from_classified : forall min_length rest pre j x,
  nth_error (merge_from min_length rest) j = Some x ->
  (min_length <= Z.of_nat (length x))%Z \/
  merged_pair min_length (pre ++ rest) x \/
  final_remainder (pre ++ rest) (merge_from min_length rest) j x.
Proof.
  intros min_length rest.
  induction rest as [| c | c n l IHl IHnl] using list_ind_two;
    intros pre j x Hj.
  - destruct j; discriminate.
  - destruct j as [|j]; [|destruct j; discriminate].
    injection Hj as <-. right. right. split; [reflexivity|].
    rewrite length_app. simpl.
    replace (length pre + 1 - 1) with (length pre + 0) by lia.
    rewrite nth_error_app2 by lia.
    replace (length pre + 0 - length pre) with 0 by lia. reflexivity.
  - rewrite merge_from_two in *.
    destruct (Z.of_nat (length c) <? min_length)%Z eqn:Hshort.
    + destruct j as [|j].
      * injection Hj as <-. right. left.
        exists (length pre), c, n. repeat split.
        -- rewrite nth_error_app2 by lia.
           replace (length pre - length pre) with 0 by lia. reflexivity.
        -- rewrite nth_error_app2 by lia.
           replace (S (length pre) - length pre) with 1 by lia. reflexivity.
        -- apply Z.ltb_lt. exact Hshort.
      * simpl in Hj.
        replace (pre ++ c :: n :: l) with ((pre ++ [c; n]) ++ l)
          by (rewrite <- app_assoc; reflexivity).
        destruct (IHl (pre ++ [c; n]) j x Hj) as [H | [H | [H1 H2]]].
        -- left. exact H.
        -- right. left. exact H.
        -- right. right. split; [cbn [length]; lia | exact H2].
    + destruct j as [|j].
      * injection Hj as <-. left. apply Z.ltb_ge. exact Hshort.
      * simpl in Hj.
        replace (pre ++ c :: n :: l) with ((pre ++ [c]) ++ n :: l)
          by (rewrite <- app_assoc; reflexivity).
        destruct (IHnl (pre ++ [c]) j x Hj) as [H | [H | [H1 H2]]].
        -- left. exact H.
        -- right. left. exact H.
        -- right. right. split; [cbn [length]; lia | exact H2].
Qed.

(** C2, as the code has it: the Fragment Merger's output is no longer than
    its input, and every output fragment has length at least the
    threshold, or is a short input fragment joined to its successor by one
    space (which may still be shorter than the threshold), or is the last
    input fragment left unmerged at the end of the output. *)
Theorem merge_output_classified :
  forall (segments : list pystr) (min_length : Z),
    length (merge_consecutive_segments segments min_length)
      <= length segments /\
    (forall j x,
        nth_error (merge_consecutive_segments segments min_length) j = Some x ->
        (min_length <= Z.of_nat (length x))%Z \/
        merged_pair min_length segments x \/
        final_remainder segments
          (merge_consecutive_segments segments min_length) j x).
Proof.
  intros segments min_length.
  rewrite merge_consecutive_segments_from. split.
  - apply merge_from_length.
  - intros j x Hj. exact (merge_from_classified min_length segments [] j x Hj).
Qed.

(** C2 as stated fails: with threshold 10 the fragments "a", "b" and a
    fragment of ten characters give "a b" followed by the long fragment;
    "a b" has three characters, stands first of two, and is not an input
    fragment. *)
Lemma merge_leaves_short_fragment :
  merge_consecutive_segments [lit "a"; lit "b"; lit "cccccccccc"] 10
    = [lit "a b"; lit "cccccccccc"] /\
  nth_error
    (merge_consecutive_segments [lit "a"; lit "b"; lit "cccccccccc"] 10) 0
    = Some (lit "a b") /\
  (Z.of_nat (length (lit "a b")) < 10)%Z /\
  1 <> length
         (merge_consecutive_segments [lit "a"; lit "b"; lit "cccccccccc"] 10) /\
  ~ In (lit "a b") [lit "a"; lit "b"; lit "cccccccccc"].
Proof.
  repeat split.
  - vm_compute. discriminate.
  - intros [H | [H | [H | []]]]; discriminate H.
Qed.

(** C10: the Fragment Merger preserves the content: its output joined with
    single spaces is the input joined with single spaces. *)
Theorem merge_preserves_joined_text :
  forall (segments : list pystr) (min_length : Z),
    join space (merge_consecutive_segments segments min_length)
    = join space segments.
Proof.
  intros segments min_length.
  rewrite merge_consecutive_segments_from. apply merge_from_join.
Qed.

(* ================================================================= *)
(** ** format_paragraphs *)

Section Paragraphs.

Variable ucd : unicode_db.

(** The loop of the code and the loop on lists of sentences run in
    step. *)
Lemma paragraph_loop_groups : forall sentences groups current,
  fold_left (paragraph_step ucd) sentences
            (map (join space) groups, current) =
  (map (join space) (fst (fold_left (group_step ucd) sentences (groups, current))),
   snd (fold_left (group_step ucd) sentences (groups, current))).
Proof.
  induction sentences as [|s sentences IH]; intros groups current.
  - reflexivity.
  - cbn [fold_left]. unfold paragraph_step at 2, group_step at 2 4.
    destruct (truthy (strip s)); [|apply IH].
    destruct (closes_paragraph ucd (current ++ [strip s]) (strip s));
      [|apply IH].
    rewrite <- IH. rewrite map_app. reflexivity.
Qed.

Lemma paragraphs_of_groups : forall sentences,
  paragraphs_of ucd sentences =
  map (join space) (paragraph_groups ucd sentences).
Proof.
  intros sentences. unfold paragraphs_of, paragraph_groups.
  pose proof (paragraph_loop_groups sentences [] []) as H.
  cbn [map] in H. rewrite H.
  destruct (fold_left (group_step ucd) sentences ([], [])) as [groups current].
  cbn [fst snd]. destruct current; [reflexivity|].
  rewrite map_app. reflexivity.
Qed.

(** Nothing that entered the loop is lost: the closed paragraphs and the
    buffer hold, in order, what they held before and the non-empty
    trimmed sentences read since. *)
Lemma group_loop_concat : forall sentences groups current,
  concat (fst (fold_left (group_step ucd) sentences (groups, current)))
  ++ snd (fold_left (group_step ucd) sentences (groups, current)) =
  concat groups ++ current ++ filter truthy (map strip sentences).
Proof.
  induction sentences as [|s sentences IH]; intros groups current.
  - simpl. rewrite app_nil_r. reflexivity.
  - cbn [fold_left map filter]. unfold group_step at 2 4.
    destruct (truthy (strip s)); [|apply IH].
    destruct (closes_paragraph ucd (current ++ [strip s]) (strip s));
      rewrite IH.
    + rewrite concat_app. simpl. rewrite app_nil_r, <- !app_assoc.
      reflexivity.
    + rewrite <- !app_assoc. reflexivity.
Qed.

Lemma group_loop_nonempty : forall sentences groups current,
  Forall (fun g => g <> []) groups ->
  Forall (fun g => g <> [])
         (fst (fold_left (group_step ucd) sentences (groups, current))).
Proof.
  induction sentences as [|s sentences IH]; intros groups current Hg.
  - exact Hg.
  - cbn [fold_left]. unfold group_step at 2.
    destruct (truthy (strip s)); [|apply IH; exact Hg].
    destruct (closes_paragraph ucd (current ++ [strip s]) (strip s));
      apply IH; [|exact Hg].
    apply Forall_app. split; [exact Hg|].
    constructor; [|constructor].
    intros E. apply app_eq_nil in E. destruct E as [_ E]. discriminate.
Qed.

Lemma paragraph_groups_concat : forall sentences,
  concat (paragraph_groups ucd sentences) =
  filter truthy (map strip sentences).
Proof.
  intros sentences. unfold paragraph_groups.
  pose proof (group_loop_concat sentences [] []) as H. cbn [concat app] in H.
  destruct (fold_left (group_step ucd) sentences ([], [])) as [groups current].
  cbn [fst snd] in H. rewrite <- H.
  destruct current.
  - rewrite app_nil_r. reflexivity.
  - rewrite concat_app. simpl. rewrite app_nil_r. reflexivity.
Qed.

Lemma paragraph_groups_nonempty : forall sentences,
  Forall (fun g => g <> []) (paragraph_groups ucd sentences).
Proof.
  intros sentences. unfold paragraph_groups.
  pose proof (group_loop_nonempty sentences [] [] (Forall_nil _)) as H.
  destruct (fold_left (group_step ucd) sentences ([], [])) as [groups current].
  cbn [fst] in H. destruct current; [exact H|].
  apply Forall_app. split; [exact H|].
  constructor; [discriminate | constructor].
Qed.

Lemma filter_map_trimmed : forall sentences,
  (forall s, In s sentences -> strip s = s /\ s <> []) ->
  filter truthy (map strip sentences) = sentences.
Proof.
  induction sentences as [|s sentences IH]; intros H; [reflexivity|].
  cbn [map filter]. destruct (H s (or_introl eq_refl)) as [Hs Hne].
  rewrite Hs. destruct s; [contradiction|]. cbn [truthy].
  rewrite IH; [reflexivity|].
  intros s' Hin. apply H. right. exact Hin.
Qed.

End Paragraphs.

(* ================================================================= *)
(** ** load_json3_file, extract_text_segments and process_file *)

Lemma load_without_events : forall data self,
  has_event_list data = false ->
  exists e, load_json3_file data self = (Raise e, self).
Proof.
  intros data self H. unfold load_json3_file, bind, lift, raise.
  destruct data as [| b | n | m e | s | items | fields]; cbn [py_in];
    try (eexists; reflexivity).
  - destruct (contains key_events s); cbn [negb]; eexists; reflexivity.
  - destruct (existsb (is_str key_events) items); cbn [negb];
      eexists; reflexivity.
  - cbn [has_event_list] in H.
    destruct (lookup key_events fields); [discriminate|].
    eexists; reflexivity.
Qed.

Lemma extract_seg_conforming : forall segs acc,
  forallb conforming_seg segs = true ->
  for_each extract_seg segs acc = Ok (acc ++ flat_map seg_texts segs).
Proof.
  induction segs as [|seg segs IH]; intros acc H.
  - simpl. rewrite app_nil_r. reflexivity.
  - cbn [forallb] in H. apply andb_true_iff in H. destruct H as [Hseg Hrest].
    cbn [for_each flat_map].
    destruct seg as [| | | | | |fields]; try discriminate Hseg.
    unfold extract_seg, rbind. cbn [py_in py_getitem seg_texts].
    cbn [conforming_seg] in Hseg.
    destruct (lookup key_utf8 fields) as [v|].
    + destruct v; try discriminate Hseg. cbn [py_strip].
      destruct (truthy (strip s)); rewrite (IH _ Hrest).
      * rewrite <- app_assoc. reflexivity.
      * reflexivity.
    + rewrite (IH _ Hrest). reflexivity.
Qed.

Lemma extract_event_conforming : forall events acc,
  forallb conforming_event events = true ->
  for_each extract_event events acc = Ok (acc ++ flat_map event_texts events).
Proof.
  induction events as [|event events IH]; intros acc H.
  - simpl. rewrite app_nil_r. reflexivity.
  - cbn [forallb] in H. apply andb_true_iff in H. destruct H as [Hev Hrest].
    cbn [for_each flat_map].
    destruct event as [| | | | | |fields]; try discriminate Hev.
    unfold extract_event, rbind. cbn [py_in py_getitem event_texts].
    cbn [conforming_event] in Hev.
    destruct (lookup key_segs fields) as [v|].
    + destruct v; try discriminate Hev. cbn [py_iter].
      rewrite (extract_seg_conforming _ _ Hev), (IH _ Hrest).
      rewrite <- app_assoc. reflexivity.
    + rewrite (IH _ Hrest). reflexivity.
Qed.

Lemma extract_conforming : forall data self,
  conforming_document data = true ->
  load_json3_file data self = (Ok data, self) /\
  extract_text_segments data self =
  (Ok (flat_map event_texts (document_events data)),
   set_original_segments
     (length (flat_map event_texts (document_events data))) self).
Proof.
  intros data self H.
  destruct data as [| | | | | |fields]; try discriminate H.
  cbn [conforming_document] in H.
  unfold load_json3_file, extract_text_segments, bind, lift, ret, modify.
  cbn [py_in py_getitem py_get document_events].
  destruct (lookup key_events fields) as [v|]; [|discriminate H].
  destruct v; try discriminate H. cbn [negb py_len py_iter].
  rewrite (extract_event_conforming _ _ H). split; reflexivity.
Qed.

Lemma remove_duplicates_ok : forall segments self,
  exists out self', remove_duplicates segments self = (Ok out, self').
Proof.
  intros [|x rest] self.
  - exists [], self. reflexivity.
  - rewrite remove_duplicates_cons. eexists. eexists. reflexivity.
Qed.

Lemma clean_text_succeeds : forall text language_code,
  language_code <> Some (lit "ko") ->
  exists cleaned, clean_text text language_code = Ok cleaned.
Proof.
  intros text [code|] H; unfold clean_text; [|eexists; reflexivity].
  destruct (truthy code); [|eexists; reflexivity].
  unfold language_specific_cleaning.
  destruct (eqb code (lit "zh")); [eexists; reflexivity|].
  destruct (eqb code (lit "ja")); [eexists; reflexivity|].
  destruct (eqb code (lit "ko")) eqn:E; [|eexists; reflexivity].
  apply eqb_eq in E. subst code. contradiction.
Qed.

(** With the document read, [process_file] is [process_data] followed by
    the write. *)
Lemma process_file_steps : forall ucd data save o self,
  process_file ucd (FileSystem (Ok data) save) o self =
  match process_data ucd data o self with
  | (Ok text, st) =>
      match save text with
      | Ok _ => (Ok text, st)
      | Raise e => (Raise e, st)
      end
  | (Raise e, st) => (Raise e, st)
  end.
Proof.
  intros ucd data save o self.
  unfold process_file, save_output_file, bind, lift, ret. cbn [fs_load fs_save].
  destruct (process_data ucd data o self) as [[text|e] st]; [|reflexivity].
  destruct (save text); reflexivity.
Qed.

Lemma process_data_conforming : forall ucd data o self,
  conforming_document data = true ->
  opt_language_code o <> Some (lit "ko") ->
  exists text st, process_data ucd data o self = (Ok text, st).
Proof.
  intros ucd data o self H Hlang.
  destruct (extract_conforming data self H) as [Hload Hextract].
  unfold process_data.
  unfold bind at 1. rewrite Hload.
  unfold bind at 1. rewrite Hextract.
  unfold bind at 1.
  assert (exists out s',
             (if opt_merge_duplicates o
              then remove_duplicates
                     (flat_map event_texts (document_events data))
              else ret (flat_map event_texts (document_events data)))
               (set_original_segments
                  (length (flat_map event_texts (document_events data)))
                  self) = (Ok out, s')) as [out [s' Hdedup]].
  { destruct (opt_merge_duplicates o).
    - destruct (remove_duplicates_ok
                  (flat_map event_texts (document_events data))
                  (set_original_segments
                     (length (flat_map event_texts (document_events data)))
                     self)) as [out [s' E]].
      exists out, s'. exact E.
    - eexists. eexists. reflexivity. }
  rewrite Hdedup. unfold bind at 1. unfold lift.
  match goal with
  | |- context [clean_text ?t (opt_language_code o)] =>
      destruct (clean_text_succeeds t _ Hlang) as [cleaned Hc]
  end.
  rewrite Hc. eexists. eexists. reflexivity.
Qed.

(** C9, as the code has it: processing fails with an error whenever the
    document lacks the top-level event list (with [ValueError] when the
    document is an object), whatever the write would do; an event without
    fragment list and a fragment without text field leave the extracted
    fragments as they are; on a document whose events and fragments are
    objects and whose text fields are strings, loading and extraction
    raise nothing, and, unless the language code is 'ko', the stages up
    to the cleaned text raise nothing either, so that processing succeeds
    exactly when the write of the output file does. *)
Theorem extraction_ignores_missing_fields :
  forall (ucd : unicode_db) (data : json) (save : pystr -> result unit)
         (o : options) (self : stats),
    (has_event_list data = false ->
     process_succeeds ucd (FileSystem (Ok data) save) o self = false) /\
    (forall fields,
        lookup key_events fields = None ->
        process_file ucd (FileSystem (Ok (JObj fields)) save) o self
        = (Raise ValueError, self)) /\
    (forall fields segments,
        lookup key_segs fields = None ->
        extract_event segments (JObj fields) = Ok segments) /\
    (forall fields segments,
        lookup key_utf8 fields = None ->
        extract_seg segments (JObj fields) = Ok segments) /\
    (conforming_document data = true ->
     load_json3_file data self = (Ok data, self) /\
     extract_text_segments data self =
     (Ok (flat_map event_texts (document_events data)),
      set_original_segments
        (length (flat_map event_texts (document_events data))) self) /\
     (opt_language_code o <> Some (lit "ko") ->
      exists text st,
        process_data ucd data o self = (Ok text, st) /\
        process_succeeds ucd (FileSystem (Ok data) save) o self
        = match save text with
          | Ok _ => true
          | Raise _ => false
          end)).
Proof.
  intros ucd data save o self. split; [|split; [|split; [|split]]].
  - intros H. unfold process_succeeds. rewrite process_file_steps.
    unfold process_data. unfold bind at 1.
    destruct (load_without_events data self H) as [e He]. rewrite He.
    reflexivity.
  - intros fields H. rewrite process_file_steps.
    unfold process_data. unfold bind at 1.
    unfold load_json3_file, bind, lift, raise. cbn [py_in]. rewrite H.
    reflexivity.
  - intros fields segments H. unfold extract_event, rbind. cbn [py_in].
    rewrite H. reflexivity.
  - intros fields segments H. unfold extract_seg, rbind. cbn [py_in].
    rewrite H. reflexivity.
  - intros H. destruct (extract_conforming data self H) as [Hload Hextract].
    split; [exact Hload|]. split; [exact Hextract|].
    intros Hlang.
    destruct (process_data_conforming ucd data o self H Hlang)
      as [text [st E]].
    exists text, st. split; [exact E|].
    unfold process_succeeds. rewrite process_file_steps, E.
    destruct (save text); reflexivity.
Qed.

Lemma extraction_ignores_missing_fields_witness :
  conforming_document
    (example_events [event_without_segs; event_with_texts]) = true /\
  fst (extract_text_segments
         (example_events [event_without_segs; event_with_texts]) init_stats)
    = Ok [lit "Hello."] /\
  (exists text st,
      process_data ascii_db
        (example_events [event_without_segs; event_with_texts])
        default_options init_stats = (Ok text, st) /\
      process_succeeds ascii_db
        (writable (example_events [event_without_segs; event_with_texts]))
        default_options init_stats = true) /\
  process_succeeds ascii_db (writable (JObj [])) default_options init_stats
  = false.
Proof.
  destruct (extraction_ignores_missing_fields ascii_db
              (example_events [event_without_segs; event_with_texts])
              (fun _ => Ok tt) default_options init_stats)
    as [_ [_ [_ [_ H]]]].
  destruct (H eq_refl) as [_ [Hextract Hprocess]].
  split; [reflexivity|].
  split; [rewrite Hextract; reflexivity|].
  split.
  - destruct Hprocess as [text [st [E Hs]]]; [discriminate|].
    exists text, st. split; [exact E | exact Hs].
  - apply (extraction_ignores_missing_fields ascii_db (JObj [])
             (fun _ => Ok tt) default_options init_stats).
    reflexivity.
Defined.

(** C9 as stated fails: a document that has the event list, with a
    fragment whose text field is a number, makes extraction raise and
    processing fail, although the output file could be written. *)
Lemma processing_fails_with_event_list :
  has_event_list (example_events [event_with_number]) = true /\
  extract_text_segments (example_events [event_with_number]) init_stats
    = (Raise AttributeError, init_stats) /\
  process_file ascii_db (writable (example_events [event_with_number]))
    default_options init_stats = (Raise AttributeError, init_stats) /\
  process_succeeds ascii_db (writable (example_events [event_with_number]))
    default_options init_stats = false.
Proof. repeat split. Qed.

(* ================================================================= *)
(** ** clean_text on the output of format_paragraphs *)

(** C1: on the fragments "One.", "Two.", "Three.", "Four.", step (e)
    puts a double line break after the third sentence, and the cleanup
    that follows replaces it by one space: the final text has no line
    break. *)
Theorem paragraph_break_is_collapsed :
  forall ucd : unicode_db,
    format_paragraphs ucd four_sentences
      = lit "One. Two. Three." ++ paragraph_sep ++ lit "Four." /\
    clean_text (format_paragraphs ucd four_sentences) None
      = Ok (lit "One. Two. Three. Four.") /\
    fst (process_data ucd
           (example_events [JObj [(key_segs, JArr (map fragment four_sentences))]])
           default_options init_stats)
      = Ok (lit "One. Two. Three. Four.").
Proof. intros ucd. repeat split. Qed.

(** C4: a bracket span that holds a line feed is not removed, and step (e)
    puts line feeds into spans: on the fragments "One.", "Two." and
    "[Dr. Smith speaking]" the annotation survives when paragraphs are
    formatted and is removed when they are not. *)
Theorem span_across_line_feed_survives :
  forall ucd : unicode_db,
    remove_spans (lit "[a" ++ [10%N] ++ lit "b]")
      = lit "[a" ++ [10%N] ++ lit "b]" /\
    has_span "[" "]" (remove_spans (lit "[a" ++ [10%N] ++ lit "b]")) = true /\
    format_paragraphs ucd [lit "One. Two."; lit "[Dr. Smith speaking]"]
      = lit "One. Two. [Dr." ++ paragraph_sep ++ lit "Smith speaking]" /\
    fst (process_data ucd
           (example_events
              [JObj [(key_segs,
                      JArr (map fragment
                              [lit "One."; lit "Two.";
                               lit "[Dr. Smith speaking]"]))]])
           default_options init_stats)
      = Ok (lit "One. Two. [Dr. Smith speaking]") /\
    fst (process_data ucd
           (example_events
              [JObj [(key_segs,
                      JArr (map fragment
                              [lit "One."; lit "Two.";
                               lit "[Dr. Smith speaking]"]))]])
           options_without_paragraphs init_stats)
      = Ok (lit "One. Two.").
Proof. intros ucd. repeat split. Qed.

(** C6: with language code 'zh', three ideographs separated by single
    spaces keep the second space: the first substitution consumes the
    second ideograph, so the pair that begins with it is not seen. *)
Theorem zh_space_between_ideographs_survives :
  cjk 20013%N = true /\ cjk 25991%N = true /\ cjk 23383%N = true /\
  language_specific_cleaning [20013; 32; 25991; 32; 23383]%N (lit "zh")
    = Ok [20013; 25991; 32; 23383]%N /\
  clean_text [20013; 32; 25991; 32; 23383]%N (Some (lit "zh"))
    = Ok [20013; 25991; 32; 23383]%N.
Proof. repeat split. Qed.

(* ================================================================= *)
(** ** The span removals of clean_text *)

Section Spans.

Variables opener closer : ascii.
Hypothesis opener_dot : forall c, chr opener c = true -> dot c = true.
Hypothesis closer_dot : forall c, chr closer c = true -> dot c = true.

Lemma lazy_star_closer : forall s prev n,
  match find_closer closer s with
  | Some j =>
      exists m, lazy_star dot s prev n [] (after_lazy closer) = Some m /\
                m_len m = S (n + j)
  | None => lazy_star dot s prev n [] (after_lazy closer) = None
  end.
Proof.
  induction s as [|c s IH]; intros prev n.
  - reflexivity.
  - cbn [find_closer lazy_star].
    assert (after_lazy closer (MState prev (c :: s) n [])
            = if chr closer c then Some (MState (Some c) s (S n) []) else None)
      as Hk by reflexivity.
    rewrite Hk. clear Hk.
    destruct (chr closer c) eqn:Hc.
    + eexists. split; [reflexivity|]. cbn [m_len]. lia.
    + destruct (dot c).
      * specialize (IH (Some c) (S n)).
        destruct (find_closer closer s) as [j|]; cbn [option_map].
        -- destruct IH as [m [Hm Hlen]]. exists m. split; [exact Hm|]. lia.
        -- exact IH.
      * reflexivity.
Qed.

Lemma match_at_span : forall prev c s,
  match (if chr opener c then find_closer closer s else None) with
  | Some j =>
      exists m, match_at (re_span opener closer) prev (c :: s) false = Some m /\
                m_len m = S (S j)
  | None => match_at (re_span opener closer) prev (c :: s) false = None
  end.
Proof.
  intros prev c s. unfold match_at, re_span. cbn [run m_rest m_len m_caps m_prev].
  destruct (chr opener c); [|reflexivity].
  pose proof (lazy_star_closer s (Some c) 1) as H.
  unfold after_lazy in H.
  destruct (find_closer closer s) as [j|].
  - destruct H as [m [Hm Hlen]]. exists m. split; [exact Hm | exact Hlen].
  - exact H.
Qed.

Lemma sub_from_span : forall s prev skip,
  sub_from (re_span opener closer) [] prev s skip
  = drop_spans opener closer s skip.
Proof.
  induction s as [|c s IH]; intros prev skip.
  - destruct skip; reflexivity.
  - cbn [sub_from drop_spans]. destruct skip as [|n]; [|apply IH].
    pose proof (match_at_span prev c s) as H.
    destruct (chr opener c).
    + destruct (find_closer closer s) as [j|].
      * destruct H as [m [Hm Hlen]]. rewrite Hm, Hlen. cbn [expand map concat app].
        apply IH.
      * rewrite H. f_equal. apply IH.
    + rewrite H. f_equal. apply IH.
Qed.

Lemma find_closer_dots : forall s n,
  find_closer closer s = Some n ->
  forallb dot (firstn (S n) s) = true /\ S n <= length s.
Proof.
  induction s as [|c s IH]; intros n H; [discriminate|].
  cbn [find_closer] in H. destruct (chr closer c) eqn:Hc.
  - injection H as <-. cbn [firstn forallb length].
    rewrite (closer_dot c Hc). split; [reflexivity | lia].
  - destruct (dot c) eqn:Hd; [|discriminate].
    destruct (find_closer closer s) as [j|]; [|discriminate].
    injection H as <-. destruct (IH j eq_refl) as [Hdots Hlen].
    split.
    + change (firstn (S (S j)) (c :: s)) with (c :: firstn (S j) s).
      cbn [forallb]. rewrite Hd, Hdots. reflexivity.
    + cbn [length]. lia.
Qed.

Lemma drop_spans_keeps_lines : forall s skip,
  forallb dot (firstn skip s) = true -> skip <= length s ->
  keeps_lines (drop_spans opener closer s skip) s.
Proof.
  induction s as [|c s IH]; intros skip Hdots Hlen.
  - constructor.
  - cbn [drop_spans]. destruct skip as [|n].
    + destruct (chr opener c) eqn:Ho.
      * destruct (find_closer closer s) as [j|] eqn:Hf.
        -- destruct (find_closer_dots s j Hf) as [Hd Hl].
           apply kl_drop; [apply opener_dot; exact Ho|].
           apply IH; assumption.
        -- apply kl_keep. apply IH; [reflexivity | lia].
      * apply kl_keep. apply IH; [reflexivity | lia].
    + cbn [firstn forallb] in Hdots. apply andb_true_iff in Hdots.
      destruct Hdots as [Hc Hrest]. cbn [length] in Hlen.
      apply kl_drop; [exact Hc|]. apply IH; [exact Hrest | lia].
Qed.

Lemma drop_spans_no_closer : forall s,
  find_closer closer s = None ->
  find_closer closer (drop_spans opener closer s 0) = None.
Proof.
  induction s as [|c s IH]; intros H; [reflexivity|].
  cbn [find_closer] in H. cbn [drop_spans].
  destruct (chr closer c) eqn:Hc; [discriminate|].
  destruct (chr opener c) eqn:Ho.
  - rewrite (opener_dot c Ho) in H.
    destruct (find_closer closer s) as [j|] eqn:Hf; [discriminate|].
    cbn [find_closer]. rewrite Hc, (opener_dot c Ho), (IH eq_refl).
    reflexivity.
  - cbn [find_closer]. rewrite Hc. destruct (dot c); [|reflexivity].
    destruct (find_closer closer s) as [j|] eqn:Hf; [discriminate|].
    rewrite (IH eq_refl). reflexivity.
Qed.

Lemma drop_spans_clean : forall s skip,
  line_span opener closer (drop_spans opener closer s skip) = false.
Proof.
  induction s as [|c s IH]; intros skip; [reflexivity|].
  cbn [drop_spans]. destruct skip as [|n]; [|apply IH].
  destruct (chr opener c) eqn:Ho.
  - destruct (find_closer closer s) as [j|] eqn:Hf; [apply IH|].
    cbn [line_span]. rewrite (drop_spans_no_closer s Hf), IH, Ho.
    reflexivity.
  - cbn [line_span]. rewrite Ho, IH. reflexivity.
Qed.

End Spans.

Lemma found_option_map : forall o, found (option_map S o) = found o.
Proof. intros [j|]; reflexivity. Qed.

Lemma keeps_lines_closer : forall closer r s,
  keeps_lines r s ->
  found (find_closer closer r) = true -> found (find_closer closer s) = true.
Proof.
  intros closer r s H. induction H as [| c r s H IH | c r s Hd H IH]; intros Hr.
  - exact Hr.
  - cbn [find_closer] in *. destruct (chr closer c); [reflexivity|].
    destruct (dot c); [|exact Hr].
    rewrite found_option_map in *. apply IH. exact Hr.
  - cbn [find_closer]. destruct (chr closer c); [reflexivity|].
    rewrite Hd, found_option_map. apply IH. exact Hr.
Qed.

Lemma keeps_lines_span : forall opener closer r s,
  keeps_lines r s ->
  line_span opener closer s = false -> line_span opener closer r = false.
Proof.
  intros opener closer r s H.
  induction H as [| c r s H IH | c r s Hd H IH]; intros Hs.
  - reflexivity.
  - cbn [line_span] in *. apply orb_false_iff in Hs. destruct Hs as [H1 H2].
    rewrite (IH H2), orb_false_r.
    destruct (chr opener c); [|reflexivity]. cbn [andb] in *.
    destruct (found (find_closer closer r)) eqn:E; [|reflexivity].
    rewrite (keeps_lines_closer closer r s H E) in H1. discriminate.
  - cbn [line_span] in Hs. apply orb_false_iff in Hs. destruct Hs as [_ H2].
    apply IH. exact H2.
Qed.

Lemma keeps_lines_dots : forall r s,
  keeps_lines r s -> forallb dot s = true -> forallb dot r = true.
Proof.
  intros r s H. induction H as [| c r s H IH | c r s Hd H IH]; intros Hs.
  - reflexivity.
  - cbn [forallb] in *. apply andb_true_iff in Hs. destruct Hs as [H1 H2].
    rewrite H1, (IH H2). reflexivity.
  - cbn [forallb] in Hs. apply andb_true_iff in Hs. apply IH. apply Hs.
Qed.

Lemma keeps_lines_trans : forall r s t,
  keeps_lines r s -> keeps_lines s t -> keeps_lines r t.
Proof.
  intros r s t Hrs Hst. revert r Hrs.
  induction Hst as [| c s t H IH | c s t Hd H IH]; intros r Hrs.
  - exact Hrs.
  - inversion Hrs; subst.
    + apply kl_keep. apply IH. assumption.
    + apply kl_drop; [assumption|]. apply IH. assumption.
  - apply kl_drop; [exact Hd|]. apply IH. exact Hrs.
Qed.

Lemma chr_dot : forall (a : ascii) (c : cp),
  N_of_ascii a <> 10%N -> chr a c = true -> dot c = true.
Proof.
  intros a c Ha H. unfold chr in H. apply N.eqb_eq in H. subst c.
  unfold dot. apply negb_true_iff. apply N.eqb_neq. exact Ha.
Qed.

Lemma sub_span_keeps_lines : forall opener closer text,
  N_of_ascii opener <> 10%N -> N_of_ascii closer <> 10%N ->
  keeps_lines (sub (re_span opener closer) [] text) text.
Proof.
  intros opener closer text Ho Hc. unfold sub. rewrite sub_from_span.
  apply drop_spans_keeps_lines; [| | reflexivity | lia];
    intros c; apply chr_dot; assumption.
Qed.

Lemma sub_span_clean : forall opener closer text,
  N_of_ascii opener <> 10%N ->
  line_span opener closer (sub (re_span opener closer) [] text) = false.
Proof.
  intros opener closer text Ho. unfold sub. rewrite sub_from_span.
  apply drop_spans_clean. intros c. apply chr_dot. exact Ho.
Qed.

Lemma has_span_on_line : forall opener closer s,
  forallb dot s = true -> has_span opener closer s = line_span opener closer s.
Proof.
  intros opener closer.
  assert (forall s, forallb dot s = true ->
                    existsb (chr closer) s = found (find_closer closer s)) as E.
  { induction s as [|c s IH]; intros H; [reflexivity|].
    cbn [forallb] in H. apply andb_true_iff in H. destruct H as [Hc Hs].
    cbn [existsb find_closer]. destruct (chr closer c); [reflexivity|].
    rewrite Hc, found_option_map. apply IH. exact Hs. }
  induction s as [|c s IH]; intros H; [reflexivity|].
  cbn [forallb] in H. apply andb_true_iff in H. destruct H as [Hc Hs].
  cbn [has_span line_span]. rewrite (E s Hs), (IH Hs). reflexivity.
Qed.

Lemma remove_spans_lines : forall text : pystr,
  keeps_lines (remove_spans text) text /\
  line_span "[" "]" (remove_spans text) = false /\
  line_span "(" ")" (remove_spans text) = false /\
  line_span "<" ">" (remove_spans text) = false.
Proof.
  intros text. unfold remove_spans.
  set (t1 := sub (re_span "[" "]") [] text).
  set (t2 := sub (re_span "(" ")") [] t1).
  assert (keeps_lines t1 text) as K1
      by (apply sub_span_keeps_lines; discriminate).
  assert (keeps_lines t2 t1) as K2
      by (apply sub_span_keeps_lines; discriminate).
  assert (keeps_lines (sub (re_span "<" ">") [] t2) t2) as K3
      by (apply sub_span_keeps_lines; discriminate).
  assert (line_span "[" "]" t1 = false) as C1
      by (apply sub_span_clean; discriminate).
  assert (line_span "(" ")" t2 = false) as C2
      by (apply sub_span_clean; discriminate).
  repeat split.
  - eapply keeps_lines_trans; [exact K3|].
    eapply keeps_lines_trans; [exact K2 | exact K1].
  - apply (keeps_lines_span _ _ _ _ K3). apply (keeps_lines_span _ _ _ _ K2).
    exact C1.
  - apply (keeps_lines_span _ _ _ _ K3). exact C2.
  - apply sub_span_clean. discriminate.
Qed.

(** The three span removals leave out characters other than line feeds,
    and afterwards no line of the text has an opening bracket,
    parenthesis or angle bracket with its closer later on the line; so on
    a text without line feed no complete bracket, parenthesis or
    angle-bracket span remains. *)
Theorem remove_spans_exhaustive_on_lines : forall text : pystr,
  keeps_lines (remove_spans text) text /\
  line_span "[" "]" (remove_spans text) = false /\
  line_span "(" ")" (remove_spans text) = false /\
  line_span "<" ">" (remove_spans text) = false /\
  (forallb dot text = true ->
   has_span "[" "]" (remove_spans text) = false /\
   has_span "(" ")" (remove_spans text) = false /\
   has_span "<" ">" (remove_spans text) = false).
Proof.
  intros text.
  destruct (remove_spans_lines text) as [K [H1 [H2 H3]]].
  repeat (split; [assumption|]).
  intros H. pose proof (keeps_lines_dots _ _ K H) as Hd.
  rewrite !(has_span_on_line _ _ _ Hd). auto.
Qed.

(* ================================================================= *)
(** ** The whitespace of the cleaned text *)

(** *** The whitespace substitution *)

Lemma greedy_accept : forall p s prev n caps,
  exists m, greedy p s prev n caps accept = Some m /\
            m_len m = n + prefix_len p s.
Proof.
  induction s as [|c s IH]; intros prev n caps.
  - eexists. split; [reflexivity|]. cbn [m_len prefix_len]. lia.
  - cbn [greedy prefix_len]. destruct (p c).
    + destruct (IH (Some c) (S n) caps) as [m [Hm Hlen]].
      rewrite Hm. exists m. split; [reflexivity | lia].
    + eexists. split; [reflexivity|]. cbn [m_len]. lia.
Qed.

Lemma match_at_spaces : forall prev c s,
  if isspace c
  then exists m, match_at re_spaces prev (c :: s) false = Some m /\
                 m_len m = S (prefix_len isspace s)
  else match_at re_spaces prev (c :: s) false = None.
Proof.
  intros prev c s. unfold match_at, re_spaces. cbn [run m_rest m_len m_caps].
  destruct (isspace c); [|reflexivity].
  destruct (greedy_accept isspace s (Some c) 1 []) as [m [Hm Hlen]].
  exists m. split; [exact Hm | exact Hlen].
Qed.

Lemma sub_from_spaces : forall s prev skip,
  sub_from re_spaces [TLit space] prev s skip = collapse_from s skip.
Proof.
  induction s as [|c s IH]; intros prev skip.
  - destruct skip; reflexivity.
  - cbn [sub_from collapse_from]. destruct skip as [|n]; [|apply IH].
    pose proof (match_at_spaces prev c s) as H.
    destruct (isspace c).
    + destruct H as [m [Hm Hlen]]. rewrite Hm, Hlen.
      cbn [expand map concat]. rewrite app_nil_r. f_equal. apply IH.
    + rewrite H. f_equal. apply IH.
Qed.

Lemma collapse_from_spaces : forall s skip x,
  skip <= prefix_len isspace s ->
  In x (collapse_from s skip) -> isspace x = false \/ x = 32%N.
Proof.
  induction s as [|c s IH]; intros skip x Hskip Hin; [contradiction|].
  cbn [collapse_from] in Hin. cbn [prefix_len] in Hskip.
  destruct skip as [|n].
  - destruct (isspace c) eqn:Hc.
    + apply in_app_or in Hin. destruct Hin as [Hin | Hin].
      * right. destruct Hin as [<- | []]. reflexivity.
      * apply (IH _ _ (Nat.le_refl _) Hin).
    + destruct Hin as [<- | Hin]; [left; exact Hc|].
      apply (IH 0 x); [lia | exact Hin].
  - destruct (isspace c); [|lia].
    apply (IH n x); [lia | exact Hin].
Qed.

Lemma normalize_whitespace_spaces : forall text x,
  In x (normalize_whitespace text) -> isspace x = false \/ x = 32%N.
Proof.
  intros text x H. unfold normalize_whitespace, sub in H.
  rewrite sub_from_spaces in H.
  apply (collapse_from_spaces text 0 x); [lia | exact H].
Qed.

(** *** Trimming *)

Lemma lstrip_incl : forall s, incl (lstrip s) s.
Proof.
  induction s as [|c s IH]; [apply incl_refl|].
  cbn [lstrip]. destruct (isspace c); [|apply incl_refl].
  apply incl_tl. exact IH.
Qed.

Lemma strip_incl : forall s, incl (strip s) s.
Proof.
  intros s x H. unfold strip, rstrip in H.
  apply in_rev in H. apply lstrip_incl in H. apply in_rev in H.
  apply lstrip_incl in H. exact H.
Qed.

(** *** The characters a substitution can produce *)

Lemma firstn_In : forall (n : nat) (l : pystr) (x : cp),
  In x (firstn n l) -> In x l.
Proof.
  induction n as [|n IH]; intros [|c l] x H; try contradiction.
  cbn [firstn] in H. destruct H as [<- | H]; [left; reflexivity|].
  right. apply (IH l x H).
Qed.

Section Within.

Variable s0 : pystr.

Lemma within_state : forall prev s n caps,
  incl s s0 -> (forall i t, In (i, t) caps -> incl t s0) ->
  within s0 (MState prev s n caps).
Proof. intros prev s n caps Hs Hcaps. split; assumption. Qed.

Lemma greedy_within : forall p s prev n caps (k : kont),
  (forall st, within s0 st -> forall m, k st = Some m -> within s0 m) ->
  incl s s0 -> (forall i t, In (i, t) caps -> incl t s0) ->
  forall m, greedy p s prev n caps k = Some m -> within s0 m.
Proof.
  induction s as [|c s IH]; intros prev n caps k Hk Hs Hcaps m Hm;
    cbn [greedy] in Hm.
  - apply (Hk _ (within_state prev [] n caps Hs Hcaps) _ Hm).
  - destruct (p c);
      [|apply (Hk _ (within_state prev (c :: s) n caps Hs Hcaps) _ Hm)].
    destruct (greedy p s (Some c) (S n) caps k) as [m'|] eqn:E.
    + injection Hm as <-.
      apply (IH _ _ _ _ Hk (fun x Hx => Hs x (or_intror Hx)) Hcaps _ E).
    + apply (Hk _ (within_state prev (c :: s) n caps Hs Hcaps) _ Hm).
Qed.

Lemma lazy_star_within : forall p s prev n caps (k : kont),
  (forall st, within s0 st -> forall m, k st = Some m -> within s0 m) ->
  incl s s0 -> (forall i t, In (i, t) caps -> incl t s0) ->
  forall m, lazy_star p s prev n caps k = Some m -> within s0 m.
Proof.
  induction s as [|c s IH]; intros prev n caps k Hk Hs Hcaps m Hm;
    cbn [lazy_star] in Hm.
  - destruct (k (MState prev [] n caps)) as [m'|] eqn:E; [|discriminate].
    injection Hm as <-. apply (Hk _ (within_state prev [] n caps Hs Hcaps) _ E).
  - destruct (k (MState prev (c :: s) n caps)) as [m'|] eqn:E.
    + injection Hm as <-.
      apply (Hk _ (within_state prev (c :: s) n caps Hs Hcaps) _ E).
    + destruct (p c); [|discriminate].
      apply (IH _ _ _ _ Hk (fun x Hx => Hs x (or_intror Hx)) Hcaps _ Hm).
Qed.

Lemma run_within : forall r st (k : kont),
  (forall st', within s0 st' -> forall m, k st' = Some m -> within s0 m) ->
  within s0 st ->
  forall m, run r st k = Some m -> within s0 m.
Proof.
  induction r as [p | r1 IH1 r2 IH2 | p | p | i r IH | p];
    intros st k Hk [Hs Hcaps] m Hm; cbn [run] in Hm.
  - destruct (m_rest st) as [|c s'] eqn:E; [discriminate|].
    destruct (p c); [|discriminate].
    apply (Hk _ (within_state (Some c) s' (S (m_len st)) (m_caps st)
                   (fun x Hx => Hs x (or_intror Hx)) Hcaps) _ Hm).
  - apply (IH1 st _ (fun st' Hst' m' Hm' => IH2 st' k Hk Hst' m' Hm')
               (conj Hs Hcaps) m Hm).
  - destruct (m_rest st) as [|c s'] eqn:E; [discriminate|].
    destruct (p c); [|discriminate].
    apply (greedy_within _ _ _ _ _ _ Hk (fun x Hx => Hs x (or_intror Hx))
                         Hcaps _ Hm).
  - apply (lazy_star_within _ _ _ _ _ _ Hk Hs Hcaps _ Hm).
  - refine (IH st _ _ (conj Hs Hcaps) m Hm).
    intros st' [Hs' Hcaps'] m' Hm'. refine (Hk _ _ m' Hm').
    apply within_state; [exact Hs'|].
    intros j t [Ht | Ht].
    + injection Ht as _ <-. intros x Hx. apply Hs.
      apply (firstn_In _ _ x Hx).
    + apply (Hcaps' j t Ht).
  - destruct (m_prev st) as [c|]; [|discriminate].
    destruct (p c); [|discriminate].
    apply (Hk _ (conj Hs Hcaps) _ Hm).
Qed.

End Within.

Lemma group_within : forall i caps s0,
  (forall j t, In (j, t) caps -> incl t s0) -> incl (group i caps) s0.
Proof.
  induction caps as [|[j t] caps IH]; intros s0 H; cbn [group].
  - intros x [].
  - destruct (Nat.eqb i j).
    + apply (H j t). left. reflexivity.
    + apply IH. intros j' t' Hin. apply (H j' t'). right. exact Hin.
Qed.

Lemma expand_chars : forall r t prev s adv m x,
  match_at r prev s adv = Some m ->
  In x (expand t m) -> In x s \/ In x (template_chars t).
Proof.
  intros r t prev s adv m x Hm Hx.
  assert (within s m) as [_ Hcaps].
  { unfold match_at in Hm.
    refine (run_within s r (MState prev s 0 []) _ _ _ m Hm).
    - intros st' Hst' m' Hm'. cbv beta in Hm'.
      destruct (adv && Nat.eqb (m_len st') 0); [discriminate|].
      injection Hm' as <-. exact Hst'.
    - split; [apply incl_refl | intros i t' []]. }
  unfold expand in Hx. unfold template_chars.
  induction t as [|it t IH]; [contradiction|].
  cbn [map concat] in *. apply in_app_or in Hx. destruct Hx as [Hx | Hx].
  - destruct it as [lit_text | i].
    + right. apply in_or_app. left. exact Hx.
    + left. apply (group_within i (m_caps m) s Hcaps x Hx).
  - destruct (IH Hx) as [H | H]; [left; exact H|].
    right. apply in_or_app. right. exact H.
Qed.

Lemma sub_from_chars : forall r t s prev skip x,
  In x (sub_from r t prev s skip) -> In x s \/ In x (template_chars t).
Proof.
  induction s as [|c s IH]; intros prev skip x Hx; cbn [sub_from] in Hx.
  - destruct skip; [|contradiction].
    destruct (match_at r prev [] false) as [m|] eqn:E; [|contradiction].
    apply (expand_chars _ _ _ _ _ _ _ E Hx).
  - assert (forall n, In x (sub_from r t (Some c) s n) ->
                      In x (c :: s) \/ In x (template_chars t)) as Hrec.
    { intros n Hn. destruct (IH _ _ _ Hn) as [H | H];
        [left; right; exact H | right; exact H]. }
    assert (forall n, In x (c :: sub_from r t (Some c) s n) ->
                      In x (c :: s) \/ In x (template_chars t)) as Hcons.
    { intros n [<- | Hn]; [left; left; reflexivity | apply (Hrec n Hn)]. }
    destruct skip as [|n]; [|apply (Hrec n Hx)].
    destruct (match_at r prev (c :: s) false) as [m|] eqn:E;
      [|apply (Hcons 0 Hx)].
    apply in_app_or in Hx. destruct Hx as [Hx | Hx].
    + apply (expand_chars _ _ _ _ _ _ _ E Hx).
    + destruct (m_len m) as [|n]; [|apply (Hrec n Hx)].
      destruct (match_at r prev (c :: s) true) as [m'|] eqn:E';
        [|apply (Hcons 0 Hx)].
      apply in_app_or in Hx. destruct Hx as [Hx | Hx].
      * apply (expand_chars _ _ _ _ _ _ _ E' Hx).
      * apply (Hrec _ Hx).
Qed.

Lemma sub_chars : forall r t s x,
  In x (sub r t s) -> In x s \/ In x (template_chars t).
Proof. intros r t s x. apply sub_from_chars. Qed.

(** *** The cleaned text *)

Lemma language_specific_chars : forall text code out x,
  language_specific_cleaning text code = Ok out ->
  In x out -> In x text \/ x = 32%N.
Proof.
  intros text code out x H Hx. unfold language_specific_cleaning in H.
  assert (forall r s, In x (sub r t_12 s) -> In x s) as H12.
  { intros r s Hs. destruct (sub_chars _ _ _ _ Hs) as [Hin | []]. exact Hin. }
  assert (forall r s, In x (sub r t_1_2 s) -> In x s \/ x = 32%N) as H1_2.
  { intros r s Hs. destruct (sub_chars _ _ _ _ Hs) as [Hin | Hin].
    - left. exact Hin.
    - right. destruct Hin as [<- | []]. reflexivity. }
  destruct (eqb code (lit "zh")).
  - injection H as <-.
    destruct (H1_2 _ _ Hx) as [Hx' | ->]; [|right; reflexivity].
    destruct (H1_2 _ _ Hx') as [Hx'' | ->]; [|right; reflexivity].
    left. apply (H12 _ _ Hx'').
  - destruct (eqb code (lit "ja")).
    + injection H as <-. left. apply (H12 _ _ Hx).
    + destruct (eqb code (lit "ko")); [discriminate|].
      injection H as <-. left. exact Hx.
Qed.

Lemma clean_text_spaces : forall text language_code out x,
  clean_text text language_code = Ok out ->
  In x out -> isspace x = true -> x = 32%N.
Proof.
  intros text language_code out x H Hx Hspace. unfold clean_text in H.
  assert (forall y, In y (strip (normalize_whitespace (remove_spans text))) ->
                    isspace y = true -> y = 32%N) as Hbase.
  { intros y Hy Hs. apply strip_incl in Hy.
    destruct (normalize_whitespace_spaces _ _ Hy) as [E | E];
      [congruence | exact E]. }
  destruct language_code as [code|].
  - destruct (truthy code).
    + destruct (language_specific_chars _ _ _ _ H Hx) as [Hin | E];
        [apply (Hbase x Hin Hspace) | exact E].
    + injection H as <-. apply (Hbase x Hx Hspace).
  - injection H as <-. apply (Hbase x Hx Hspace).
Qed.

Lemma process_data_cleans : forall ucd data o self text,
  fst (process_data ucd data o self) = Ok text ->
  exists t, clean_text t (opt_language_code o) = Ok text.
Proof.
  intros ucd data o self text H. unfold process_data in H.
  unfold bind at 1 in H.
  destruct (load_json3_file data self) as [[d|e] s1]; [|discriminate H].
  unfold bind at 1 in H.
  destruct (extract_text_segments d s1) as [[segs|e] s2]; [|discriminate H].
  unfold bind at 1 in H.
  destruct ((if opt_merge_duplicates o then remove_duplicates segs
             else ret segs) s2) as [[segs'|e] s3]; [|discriminate H].
  unfold bind at 1 in H. unfold lift in H.
  match type of H with
  | context [clean_text ?t (opt_language_code o)] =>
      exists t; destruct (clean_text t (opt_language_code o)) as [c|e]
  end; [|discriminate H].
  cbn in H. exact H.
Qed.

(** The only whitespace [clean_text] leaves is the space, so the text a
    run produces holds no line feed: no paragraph break of
    [format_paragraphs] reaches the output. *)
Theorem cleaned_text_has_no_line_break :
  forall (ucd : unicode_db) (data : json) (o : options) (self : stats),
    (forall text language_code out,
        clean_text text language_code = Ok out ->
        forall x, In x out -> isspace x = true -> x = 32%N) /\
    (forall text,
        fst (process_data ucd data o self) = Ok text -> ~ In 10%N text).
Proof.
  intros ucd data o self. split.
  - intros text language_code out H x. apply (clean_text_spaces _ _ _ _ H).
  - intros text H Hin.
    destruct (process_data_cleans _ _ _ _ _ H) as [t Ht].
    pose proof (clean_text_spaces _ _ _ _ Ht Hin eq_refl) as E.
    discriminate E.
Qed.

(* ================================================================= *)
(** ** The sentences of a run *)

(** *** Trimmed texts *)

Lemma starts_clean_app : forall l r,
  l <> [] -> starts_clean (l ++ r) = starts_clean l.
Proof. intros [|c l] r H; [contradiction | reflexivity]. Qed.

Lemma starts_clean_nonempty : forall s, starts_clean s = true -> s <> [].
Proof. intros [|c s] H; [discriminate H | discriminate]. Qed.

Lemma ends_clean_nonempty : forall s, ends_clean s = true -> s <> [].
Proof.
  intros s H E. subst s. discriminate H.
Qed.

Lemma ends_clean_app : forall l r,
  r <> [] -> ends_clean (l ++ r) = ends_clean r.
Proof.
  intros l r H. unfold ends_clean. rewrite rev_app_distr.
  apply starts_clean_app. intros E. apply H.
  rewrite <- (rev_involutive r), E. reflexivity.
Qed.

Lemma lstrip_clean : forall s, starts_clean s = true -> lstrip s = s.
Proof.
  intros [|c s] H; [reflexivity|]. cbn [starts_clean] in H. cbn [lstrip].
  apply negb_true_iff in H. rewrite H. reflexivity.
Qed.

Lemma tidy_strip : forall s, tidy s = true -> strip s = s /\ s <> [].
Proof.
  intros s H. unfold tidy in H. apply andb_true_iff in H.
  destruct H as [Hs He]. split.
  - unfold strip, rstrip. rewrite (lstrip_clean s Hs).
    rewrite (lstrip_clean (rev s) He). apply rev_involutive.
  - apply starts_clean_nonempty. exact Hs.
Qed.

Lemma lstrip_starts : forall s, lstrip s = [] \/ starts_clean (lstrip s) = true.
Proof.
  induction s as [|c s IH]; [left; reflexivity|].
  cbn [lstrip]. destruct (isspace c) eqn:E; [exact IH|].
  right. cbn [starts_clean]. rewrite E. reflexivity.
Qed.

Lemma lstrip_suffix : forall s, exists ws, s = ws ++ lstrip s.
Proof.
  induction s as [|c s [ws IH]]; [exists []; reflexivity|].
  cbn [lstrip]. destruct (isspace c).
  - exists (c :: ws). cbn [app]. rewrite <- IH. reflexivity.
  - exists []. reflexivity.
Qed.

Lemma strip_tidy : forall s, truthy (strip s) = true -> tidy (strip s) = true.
Proof.
  intros s H. unfold strip, rstrip in *.
  set (x := lstrip s) in *. set (y := lstrip (rev x)) in *.
  assert (y <> []) as Hy.
  { intros E. rewrite E in H. discriminate H. }
  assert (starts_clean y = true) as Hys.
  { destruct (lstrip_starts (rev x)) as [E | E]; [contradiction | exact E]. }
  assert (rev y <> []) as Hry.
  { intros E. apply Hy. rewrite <- (rev_involutive y), E. reflexivity. }
  unfold tidy, ends_clean. rewrite rev_involutive, Hys, andb_true_r.
  destruct (lstrip_suffix (rev x)) as [ws Hws]. fold y in Hws.
  assert (x = rev y ++ rev ws) as Hx.
  { rewrite <- (rev_involutive x), Hws, rev_app_distr. reflexivity. }
  destruct (lstrip_starts s) as [E | E]; fold x in E.
  - rewrite E in Hx. symmetry in Hx. apply app_eq_nil in Hx.
    destruct Hx as [Hx _]. contradiction.
  - rewrite Hx, (starts_clean_app _ _ Hry) in E. exact E.
Qed.

Lemma tidy_join_pair : forall a b,
  tidy a = true -> tidy b = true -> tidy (a ++ space ++ b) = true.
Proof.
  intros a b Ha Hb. unfold tidy in *.
  apply andb_true_iff in Ha. destruct Ha as [Has Hae].
  apply andb_true_iff in Hb. destruct Hb as [Hbs Hbe].
  rewrite (starts_clean_app _ _ (starts_clean_nonempty _ Has)), Has.
  rewrite app_assoc, (ends_clean_app _ _ (starts_clean_nonempty _ Hbs)), Hbe.
  reflexivity.
Qed.

Lemma tidy_join : forall segments,
  segments <> [] -> Forall (fun s => tidy s = true) segments ->
  tidy (join space segments) = true.
Proof.
  induction segments as [|a segments IH]; intros Hne H; [contradiction|].
  inversion H as [|? ? Ha Hrest]; subst.
  destruct segments as [|b segments]; [exact Ha|].
  change (join space (a :: b :: segments))
    with (a ++ space ++ join space (b :: segments)).
  apply tidy_join_pair; [exact Ha|]. apply IH; [discriminate | exact Hrest].
Qed.

(** *** The fragments of a run are trimmed and non-empty *)

Lemma for_each_invariant :
  forall (A B : Type) (P : B -> Prop) (body : B -> A -> result B),
    (forall acc x out, P acc -> body acc x = Ok out -> P out) ->
    forall items acc out,
      P acc -> for_each body items acc = Ok out -> P out.
Proof.
  intros A B P body Hbody. induction items as [|x items IH]; intros acc out Hacc H.
  - injection H as <-. exact Hacc.
  - cbn [for_each] in H. destruct (body acc x) as [acc'|e] eqn:E; [|discriminate].
    apply (IH acc' out (Hbody acc x acc' Hacc E) H).
Qed.

Lemma extract_seg_tidy : forall acc seg out,
  Forall (fun s => tidy s = true) acc ->
  extract_seg acc seg = Ok out -> Forall (fun s => tidy s = true) out.
Proof.
  intros acc seg out Hacc H. unfold extract_seg, rbind in H.
  destruct (py_in key_utf8 seg) as [[|]|e]; try discriminate.
  - destruct (py_getitem seg key_utf8) as [v|e]; [|discriminate].
    destruct (py_strip v) as [s|e] eqn:Es; [|discriminate].
    destruct v; try discriminate Es. injection Es as <-.
    destruct (truthy (strip s0)) eqn:Et; injection H as <-; [|exact Hacc].
    apply Forall_app. split; [exact Hacc|].
    constructor; [apply strip_tidy; exact Et | constructor].
  - injection H as <-. exact Hacc.
Qed.

Lemma extract_event_tidy : forall acc event out,
  Forall (fun s => tidy s = true) acc ->
  extract_event acc event = Ok out -> Forall (fun s => tidy s = true) out.
Proof.
  intros acc event out Hacc H. unfold extract_event, rbind in H.
  destruct (py_in key_segs event) as [[|]|e]; try discriminate.
  - destruct (py_getitem event key_segs) as [v|e]; [|discriminate].
    destruct (py_iter v) as [items|e]; [|discriminate].
    apply (for_each_invariant _ _ _ extract_seg extract_seg_tidy items acc out Hacc H).
  - injection H as <-. exact Hacc.
Qed.

Lemma extract_text_segments_tidy : forall data self segments self',
  extract_text_segments data self = (Ok segments, self') ->
  Forall (fun s => tidy s = true) segments.
Proof.
  intros data self segments self' H.
  unfold extract_text_segments, bind, lift, modify, ret in H.
  destruct (py_get data key_events) as [events|e]; [|discriminate].
  destruct (py_iter events) as [items|e]; [|discriminate].
  destruct (for_each extract_event items []) as [out|e] eqn:E; [|discriminate].
  injection H as <- _.
  apply (for_each_invariant _ _ _ extract_event extract_event_tidy items [] out
           (Forall_nil _) E).
Qed.

Lemma dedup_after_forall : forall (P : pystr -> Prop) rest x,
  Forall P rest -> Forall P (fst (dedup_after x rest)).
Proof.
  intros P. induction rest as [|y rest IH]; intros x H; [constructor|].
  inversion H as [|? ? Hy Hrest]; subst. cbn [dedup_after].
  specialize (IH y Hrest). destruct (dedup_after y rest) as [out n].
  destruct (eqb y x); cbn [fst] in *; [exact IH|].
  constructor; assumption.
Qed.

Lemma remove_duplicates_forall : forall (P : pystr -> Prop) segments self out self',
  Forall P segments ->
  remove_duplicates segments self = (Ok out, self') -> Forall P out.
Proof.
  intros P [|x rest] self out self' H E.
  - injection E as <- _. constructor.
  - rewrite remove_duplicates_cons in E. injection E as <- _.
    inversion H as [|? ? Hx Hrest]; subst.
    constructor; [exact Hx | apply dedup_after_forall; exact Hrest].
Qed.

Lemma remove_duplicates_nonempty : forall segments self out self',
  segments <> [] ->
  remove_duplicates segments self = (Ok out, self') -> out <> [].
Proof.
  intros [|x rest] self out self' H E; [contradiction|].
  rewrite remove_duplicates_cons in E. injection E as <- _. discriminate.
Qed.

Lemma merge_from_tidy : forall min_length l,
  Forall (fun s => tidy s = true) l ->
  Forall (fun s => tidy s = true) (merge_from min_length l).
Proof.
  intros min_length. apply (list_ind_two pystr (fun l =>
    Forall (fun s => tidy s = true) l ->
    Forall (fun s => tidy s = true) (merge_from min_length l))).
  - intros _. constructor.
  - intros x H. exact H.
  - intros x y l IHl IHyl H. rewrite merge_from_two.
    inversion H as [|? ? Hx Hyl]; subst.
    inversion Hyl as [|? ? Hy Hl]; subst.
    destruct (Z.of_nat (length x) <? min_length)%Z.
    + constructor; [apply tidy_join_pair; assumption | apply IHl; exact Hl].
    + constructor; [exact Hx | apply IHyl; exact Hyl].
Qed.

Lemma prepared_segments_tidy : forall data o self segments self',
  prepared_segments data o self = (Ok segments, self') ->
  Forall (fun s => tidy s = true) segments.
Proof.
  intros data o self segments self' H. unfold prepared_segments in H.
  unfold bind at 1 in H.
  destruct (load_json3_file data self) as [[d|e] s1]; [|discriminate H].
  unfold bind at 1 in H.
  destruct (extract_text_segments d s1) as [[segs|e] s2] eqn:Ex;
    [|discriminate H].
  pose proof (extract_text_segments_tidy _ _ _ _ Ex) as Htidy.
  unfold bind at 1 in H.
  destruct ((if opt_merge_duplicates o then remove_duplicates segs
             else ret segs) s2) as [[segs'|e] s3] eqn:Ed; [|discriminate H].
  assert (Forall (fun s => tidy s = true) segs') as Htidy'.
  { destruct (opt_merge_duplicates o).
    - apply (remove_duplicates_forall _ _ _ _ _ Htidy Ed).
    - injection Ed as <- _. exact Htidy. }
  unfold ret in H. injection H as <- _.
  destruct (0 <? opt_min_segment_length o)%Z; [|exact Htidy'].
  rewrite merge_consecutive_segments_from. apply merge_from_tidy. exact Htidy'.
Qed.

Lemma process_data_prepared : forall ucd data o self,
  process_data ucd data o self =
  bind (prepared_segments data o)
       (fun segments =>
          text <- lift (clean_text
                          (if opt_format_paragraphs o
                           then format_paragraphs ucd segments
                           else join space segments)
                          (opt_language_code o)) ;;
          modify (set_totals (length segments) (length text)
                             (length (split_words text []))) ;;;
          ret text) self.
Proof.
  intros ucd data o self. unfold process_data, prepared_segments, bind.
  destruct (load_json3_file data self) as [[d|e] s1]; [|reflexivity].
  destruct (extract_text_segments d s1) as [[segs|e] s2]; [|reflexivity].
  destruct ((if opt_merge_duplicates o then remove_duplicates segs
             else ret segs) s2) as [[segs'|e] s3]; reflexivity.
Qed.

(** *** What a substitution does to the ends of a text *)

Section KeepsEnd.

Variable r : re.
Variable t : list titem.
Hypothesis keeps_end : replacement_keeps_end r t.

Lemma no_match_at_end : forall prev adv, match_at r prev [] adv = None.
Proof.
  intros prev adv. destruct (match_at r prev [] adv) as [m|] eqn:E; [|reflexivity].
  destruct (keeps_end _ _ _ _ E) as [H1 [H2 _]]. simpl in H2. lia.
Qed.

Lemma sub_from_all_skipped : forall s prev,
  sub_from r t prev s (length s) = [].
Proof.
  induction s as [|c s IH]; intros prev.
  - cbn [sub_from length]. rewrite no_match_at_end. reflexivity.
  - cbn [sub_from length]. apply IH.
Qed.

Lemma sub_from_last : forall s0 z prev skip,
  skip <= length s0 ->
  exists o, sub_from r t prev (s0 ++ [z]) skip = o ++ [z].
Proof.
  induction s0 as [|c s0 IH]; intros z prev skip Hskip.
  - assert (skip = 0) as -> by (simpl in Hskip; lia).
    cbn [app sub_from].
    destruct (match_at r prev [z] false) as [m|] eqn:E.
    + destruct (keeps_end _ _ _ _ E) as [H1 [H2 [o Ho]]].
      assert (m_len m = 1) as Hlen by (simpl in H2; lia).
      rewrite Hlen in *. cbn [Nat.sub nth] in Ho.
      rewrite no_match_at_end, app_nil_r. exists o. exact Ho.
    + rewrite no_match_at_end. exists []. reflexivity.
  - cbn [app sub_from]. destruct skip as [|n].
    + destruct (match_at r prev (c :: s0 ++ [z]) false) as [m|] eqn:E.
      * destruct (keeps_end _ _ _ _ E) as [H1 [H2 [o Ho]]].
        destruct (m_len m) as [|n] eqn:Hlen; [lia|].
        cbn [length] in H2. rewrite length_app in H2. cbn [length] in H2.
        destruct (Nat.eq_dec n (length (s0 ++ [z]))) as [Hn | Hn].
        -- rewrite Hn, sub_from_all_skipped, app_nil_r.
           exists o. rewrite Ho. f_equal. f_equal.
           replace (S n - 1) with (S (length s0))
             by (rewrite Hn, length_app; simpl; lia).
           cbn [nth]. rewrite app_nth2 by lia.
           replace (length s0 - length s0) with 0 by lia. reflexivity.
        -- rewrite length_app in Hn. cbn [length] in Hn.
           destruct (IH z (Some c) n) as [o' Ho']; [lia|].
           exists (expand t m ++ o'). rewrite Ho', app_assoc. reflexivity.
      * destruct (IH z (Some c) 0) as [o' Ho']; [lia|].
        exists (c :: o'). rewrite Ho'. reflexivity.
    + cbn [length] in Hskip. destruct (IH z (Some c) n) as [o' Ho']; [lia|].
      exists o'. exact Ho'.
Qed.

End KeepsEnd.

Lemma starts_clean_cons : forall s,
  starts_clean s = true -> exists c rest, s = c :: rest /\ isspace c = false.
Proof.
  intros [|c rest] H; [discriminate H|]. exists c, rest.
  split; [reflexivity | apply negb_true_iff; exact H].
Qed.

Lemma ends_clean_snoc : forall s,
  ends_clean s = true -> exists s0 z, s = s0 ++ [z] /\ isspace z = false.
Proof.
  intros s H. unfold ends_clean in H.
  destruct (starts_clean_cons _ H) as [z [rest [E Hz]]].
  exists (rev rest), z. split; [|exact Hz].
  rewrite <- (rev_involutive s), E. reflexivity.
Qed.

Lemma ends_clean_last : forall o z, isspace z = false -> ends_clean (o ++ [z]) = true.
Proof.
  intros o z H. unfold ends_clean. rewrite rev_app_distr. cbn.
  rewrite H. reflexivity.
Qed.

Lemma sub_keeps_end : forall r t s,
  replacement_keeps_end r t ->
  ends_clean s = true -> ends_clean (sub r t s) = true.
Proof.
  intros r t s Hr H.
  destruct (ends_clean_snoc s H) as [s0 [z [-> Hz]]].
  destruct (sub_from_last r t Hr s0 z None 0) as [o Ho]; [lia|].
  unfold sub. rewrite Ho. apply ends_clean_last. exact Hz.
Qed.

(** A match at the start of the text is replaced by text that begins with
    the first character. *)
Lemma sub_keeps_start : forall r t c s,
  isspace c = false ->
  (forall m, match_at r None (c :: s) false = Some m ->
             1 <= m_len m /\ exists o, expand t m = c :: o) ->
  starts_clean (sub r t (c :: s)) = true.
Proof.
  intros r t c s Hc H. unfold sub. cbn [sub_from].
  destruct (match_at r None (c :: s) false) as [m|].
  - destruct (H m eq_refl) as [Hlen [o Ho]]. rewrite Ho.
    cbn [app starts_clean]. rewrite Hc. reflexivity.
  - cbn [starts_clean]. rewrite Hc. reflexivity.
Qed.

(** *** The patterns of format_paragraphs *)

Lemma space_not_sentence_end : forall c,
  isspace c = true -> sentence_end c = false.
Proof.
  intros c H. unfold sentence_end, chr.
  destruct (N.eqb_spec (N_of_ascii ".") c) as [<- | _]; [discriminate H|].
  destruct (N.eqb_spec (N_of_ascii "!") c) as [<- | _]; [discriminate H|].
  destruct (N.eqb_spec (N_of_ascii "?") c) as [<- | _]; [discriminate H|].
  reflexivity.
Qed.

Lemma end_group_at : forall adv prev s n caps,
  end_group adv (MState prev s n caps) =
  match s with
  | e :: rest =>
      if sentence_end e
      then Some (MState (Some e) rest (S n) ((1, [e]) :: caps))
      else None
  | [] => None
  end.
Proof.
  intros adv prev s n caps. unfold end_group. cbn [run m_rest m_len m_caps m_prev].
  destruct s as [|e rest]; [reflexivity|].
  destruct (sentence_end e); [|reflexivity].
  cbn [m_len m_rest m_prev m_caps Nat.eqb]. rewrite andb_false_r.
  replace (S n - n) with 1 by lia. reflexivity.
Qed.

Lemma greedy_end_group : forall adv s prev n caps m,
  greedy isspace s prev n caps (end_group adv) = Some m ->
  prefix_len isspace s < length s /\
  m_len m = S (n + prefix_len isspace s) /\
  group 1 (m_caps m) = [nth (prefix_len isspace s) s 0%N].
Proof.
  intros adv. induction s as [|c s IH]; intros prev n caps m H;
    cbn [greedy] in H.
  - rewrite end_group_at in H. discriminate H.
  - cbn [prefix_len]. destruct (isspace c) eqn:Hc.
    + destruct (greedy isspace s (Some c) (S n) caps (end_group adv))
        as [m'|] eqn:E.
      * injection H as <-. destruct (IH _ _ _ _ E) as [H1 [H2 H3]].
        cbn [length nth]. repeat split; [lia | lia | exact H3].
      * rewrite end_group_at, (space_not_sentence_end c Hc) in H.
        discriminate H.
    + rewrite end_group_at in H. destruct (sentence_end c); [|discriminate H].
      injection H as <-. cbn [length m_len m_caps group nth Nat.eqb].
      repeat split; lia.
Qed.

Lemma match_at_space_before_end : forall prev s adv m,
  match_at re_space_before_end prev s adv = Some m ->
  exists c s',
    s = c :: s' /\ isspace c = true /\
    prefix_len isspace s' < length s' /\
    m_len m = S (S (prefix_len isspace s')) /\
    expand t_1 m = [nth (prefix_len isspace s') s' 0%N].
Proof.
  intros prev s adv m H. unfold match_at, re_space_before_end in H.
  cbn [run m_rest m_len m_caps] in H.
  destruct s as [|c s']; [discriminate H|].
  destruct (isspace c) eqn:Hc; [|discriminate H].
  destruct (greedy_end_group adv s' (Some c) 1 [] m H) as [H1 [H2 H3]].
  exists c, s'. repeat split; try assumption.
  unfold expand, t_1. cbn [map concat]. rewrite H3, app_nil_r. reflexivity.
Qed.

Lemma space_before_end_keeps_end :
  replacement_keeps_end re_space_before_end t_1.
Proof.
  intros prev s adv m H.
  destruct (match_at_space_before_end _ _ _ _ H)
    as [c [s' [-> [Hc [Hp [Hlen Hex]]]]]].
  rewrite Hlen. cbn [length]. repeat split; try lia.
  exists []. rewrite Hex. cbn [app Nat.sub nth].
  replace (S (prefix_len isspace s') - 0) with (S (prefix_len isspace s')) by lia.
  reflexivity.
Qed.

Lemma match_at_pair : forall a b prev s adv m,
  match_at (re_pair a b) prev s adv = Some m ->
  exists c d s',
    s = c :: d :: s' /\ m_len m = 2 /\
    group 1 (m_caps m) = [c] /\ group 2 (m_caps m) = [d].
Proof.
  intros a b prev s adv m H. unfold match_at, re_pair in H.
  cbn [run m_rest m_len m_caps m_prev] in H.
  destruct s as [|c [|d s']]; try discriminate H.
  - destruct (a c); discriminate H.
  - destruct (a c); [|discriminate H]. cbn [m_rest m_len m_caps m_prev] in H.
    destruct (b d); [|discriminate H]. cbn [m_len Nat.eqb] in H.
    rewrite andb_false_r in H. injection H as <-.
    exists c, d, s'. repeat split.
Qed.

Lemma pair_keeps_end : forall a b, replacement_keeps_end (re_pair a b) t_1_2.
Proof.
  intros a b prev s adv m H.
  destruct (match_at_pair _ _ _ _ _ _ H) as [c [d [s' [-> [Hlen [H1 H2]]]]]].
  rewrite Hlen. cbn [length]. repeat split; try lia.
  exists (c :: space). unfold expand, t_1_2. cbn [map concat].
  rewrite H1, H2. reflexivity.
Qed.

Lemma punctuated_text_tidy : forall ucd segments,
  segments <> [] -> Forall (fun s => tidy s = true) segments ->
  tidy (punctuated_text ucd segments) = true.
Proof.
  intros ucd segments Hne Hall. unfold punctuated_text.
  pose proof (tidy_join segments Hne Hall) as H.
  set (text := join space segments) in *.
  unfold tidy in H. apply andb_true_iff in H. destruct H as [Hs He].
  assert (tidy (sub re_space_before_end t_1 text) = true) as H1.
  { unfold tidy. apply andb_true_iff. split.
    - destruct (starts_clean_cons _ Hs) as [c [rest [-> Hc]]].
      apply (sub_keeps_start _ _ _ _ Hc). intros m Hm.
      destruct (match_at_space_before_end _ _ _ _ Hm)
        as [c' [s' [E [Hc' _]]]].
      injection E as <- _. congruence.
    - apply sub_keeps_end; [apply space_before_end_keeps_end | exact He]. }
  unfold tidy in H1. apply andb_true_iff in H1. destruct H1 as [Hs1 He1].
  unfold tidy. apply andb_true_iff. split.
  - destruct (starts_clean_cons _ Hs1) as [c [rest [E Hc]]]. rewrite E.
    apply (sub_keeps_start _ _ _ _ Hc). intros m Hm.
    destruct (match_at_pair _ _ _ _ _ _ Hm) as [c' [d [s' [E' [Hlen [G1 G2]]]]]].
    injection E' as <- _. split; [lia|].
    exists (space ++ [d]). unfold expand, t_1_2. cbn [map concat].
    rewrite G1, G2. reflexivity.
  - apply sub_keeps_end; [apply pair_keeps_end | exact He1].
Qed.

(** *** The sentences of step (c) *)

Lemma greedy_ext : forall p s prev n caps (k k' : kont),
  (forall st, n <= m_len st -> k st = k' st) ->
  greedy p s prev n caps k = greedy p s prev n caps k'.
Proof.
  induction s as [|c s IH]; intros prev n caps k k' H; cbn [greedy].
  - apply H. cbn [m_len]. lia.
  - destruct (p c).
    + rewrite (IH (Some c) (S n) caps k k') by (intros st Hst; apply H; lia).
      destruct (greedy p s (Some c) (S n) caps k'); [reflexivity|].
      apply H. cbn [m_len]. lia.
    + apply H. cbn [m_len]. lia.
Qed.

Lemma match_at_sentence_gap : forall prev s adv m,
  match_at re_sentence_gap prev s adv = Some m ->
  exists p c s',
    prev = Some p /\ sentence_end p = true /\
    s = c :: s' /\ isspace c = true /\
    m_len m = S (prefix_len isspace s').
Proof.
  intros prev s adv m H. unfold match_at, re_sentence_gap in H.
  cbn [run m_prev m_rest m_len m_caps] in H.
  destruct prev as [p|]; [|discriminate H].
  destruct (sentence_end p) eqn:Hp; [|discriminate H].
  destruct s as [|c s']; [discriminate H|].
  destruct (isspace c) eqn:Hc; [|discriminate H].
  exists p, c, s'. repeat split; try assumption.
  rewrite (greedy_ext isspace s' (Some c) 1 [] _ accept) in H.
  - destruct (greedy_accept isspace s' (Some c) 1 []) as [m' [Hm' Hlen]].
    rewrite Hm' in H. injection H as <-. exact Hlen.
  - intros st Hst. unfold accept. destruct (m_len st); [lia|].
    cbn [Nat.eqb]. rewrite andb_false_r. reflexivity.
Qed.

Lemma split_from_tidy : forall s prev skip cur,
  split_state prev s skip cur ->
  Forall (fun piece => tidy piece = true)
         (split_from re_sentence_gap prev s skip cur).
Proof.
  induction s as [|c s IH]; intros prev skip cur [Hend Hst].
  - rewrite app_nil_r in Hend. destruct skip as [|n].
    + cbn [split_from].
      destruct (match_at re_sentence_gap prev [] false) as [m|] eqn:E.
      * destruct (match_at_sentence_gap _ _ _ _ E)
          as [p [c [s' [_ [_ [Hs _]]]]]]. discriminate Hs.
      * constructor; [|constructor]. unfold tidy. rewrite Hend, andb_true_r.
        destruct Hst as [[-> _] | [p [cur' [_ [_ Hs]]]]];
          [discriminate Hend | exact Hs].
    + destruct Hst as [_ Hst]. discriminate Hst.
  - cbn [split_from]. destruct skip as [|n].
    + destruct (match_at re_sentence_gap prev (c :: s) false) as [m|] eqn:E.
      * destruct (match_at_sentence_gap _ _ _ _ E)
          as [p [c' [s' [Hprev [Hp [Hs [Hc Hlen]]]]]]].
        injection Hs as <- <-. rewrite Hlen.
        assert (isspace p = false) as Hpns.
        { destruct (isspace p) eqn:Ep; [|reflexivity].
          rewrite (space_not_sentence_end p Ep) in Hp. discriminate Hp. }
        destruct Hst as [[_ Hs] | [q [cur' [Hcur [Hq Hs]]]]].
        { cbn [starts_clean] in Hs. rewrite Hc in Hs. discriminate Hs. }
        assert (q = p) as -> by congruence. subst cur.
        assert (s <> []) as Hne.
        { intros ->. rewrite ends_clean_app in Hend by discriminate.
          unfold ends_clean in Hend. cbn in Hend. rewrite Hc in Hend.
          discriminate Hend. }
        constructor.
        -- unfold tidy, ends_clean. rewrite Hs, rev_involutive.
           cbn [starts_clean]. rewrite Hpns. reflexivity.
        -- apply IH. split.
           ++ cbn [rev app].
              replace (rev (p :: cur') ++ c :: s)
                with ((rev (p :: cur') ++ [c]) ++ s) in Hend
                by (rewrite <- app_assoc; reflexivity).
              rewrite ends_clean_app in Hend by exact Hne. exact Hend.
           ++ destruct (prefix_len isspace s) as [|k] eqn:Ek.
              ** left. split; [reflexivity|].
                 destruct s as [|d s]; [contradiction|].
                 cbn [prefix_len] in Ek. cbn [starts_clean].
                 destruct (isspace d); [discriminate Ek | reflexivity].
              ** split; reflexivity.
      * apply IH. split.
        -- cbn [rev]. rewrite <- app_assoc. exact Hend.
        -- right. exists c, cur. repeat split.
           destruct Hst as [[-> Hs] | [q [cur' [Hcur [Hq Hs]]]]].
           ++ exact Hs.
           ++ cbn [rev]. rewrite starts_clean_app; [exact Hs|].
              apply starts_clean_nonempty. exact Hs.
    + destruct Hst as [-> Hn]. cbn [prefix_len] in Hn.
      destruct (isspace c) eqn:Hc; [|discriminate Hn].
      injection Hn as Hn.
      assert (s <> []) as Hne.
      { intros ->. unfold ends_clean in Hend. cbn in Hend.
        rewrite Hc in Hend. discriminate Hend. }
      apply IH. split.
      * cbn [rev app] in *.
        change (c :: s) with ([c] ++ s) in Hend.
        rewrite ends_clean_app in Hend by exact Hne. exact Hend.
      * destruct n as [|k].
        -- left. split; [reflexivity|].
           destruct s as [|d s]; [contradiction|].
           cbn [prefix_len] in Hn. cbn [starts_clean].
           destruct (isspace d); [discriminate Hn | reflexivity].
        -- split; [reflexivity | exact Hn].
Qed.

Lemma split_sentences_tidy : forall ucd segments,
  segments <> [] -> Forall (fun s => tidy s = true) segments ->
  Forall (fun s => tidy s = true) (split_sentences ucd segments).
Proof.
  intros ucd segments Hne Hall. unfold split_sentences, split.
  pose proof (punctuated_text_tidy ucd segments Hne Hall) as H.
  unfold tidy in H. apply andb_true_iff in H. destruct H as [Hs He].
  apply split_from_tidy. split; [exact He|]. left. split; [reflexivity | exact Hs].
Qed.

(** C5, as the code has it: [process_file] hands the prepared fragments
    to [format_paragraphs]; when there is at least one fragment, every
    sentence of step (c) is trimmed and non-empty and the sentences of all
    paragraphs, in order, are exactly the sentences of step (c).  In
    general the text returned is the paragraphs joined by a double line
    break, each paragraph its sentences joined by a space; the paragraphs
    hold the sentences of step (c) trimmed, without those that are empty
    after trimming; no paragraph is empty, and the sentences left in the
    buffer when the loop ends form the last paragraph, however few they
    are. *)
Theorem paragraphs_keep_sentences :
  forall (ucd : unicode_db),
    (forall data o self,
        process_data ucd data o self =
        bind (prepared_segments data o)
             (fun segments =>
                text <- lift (clean_text
                                (if opt_format_paragraphs o
                                 then format_paragraphs ucd segments
                                 else join space segments)
                                (opt_language_code o)) ;;
                modify (set_totals (length segments) (length text)
                                   (length (split_words text []))) ;;;
                ret text) self) /\
    (forall data o self segments self',
        prepared_segments data o self = (Ok segments, self') ->
        segments <> [] ->
        Forall (fun s => strip s = s /\ s <> [])
               (split_sentences ucd segments) /\
        concat (paragraph_groups ucd (split_sentences ucd segments))
        = split_sentences ucd segments) /\
    (forall segments,
        format_paragraphs ucd segments =
        join paragraph_sep
             (map (join space)
                  (paragraph_groups ucd (split_sentences ucd segments)))) /\
    (forall sentences,
        concat (paragraph_groups ucd sentences) =
        filter truthy (map strip sentences)) /\
    (forall sentences,
        Forall (fun g => g <> []) (paragraph_groups ucd sentences)) /\
    (forall sentences groups current,
        fold_left (group_step ucd) sentences ([], []) = (groups, current) ->
        current <> [] ->
        paragraph_groups ucd sentences = groups ++ [current]).
Proof.
  intros ucd. split; [|split; [|split; [|split; [|split]]]].
  - intros data o self. apply process_data_prepared.
  - intros data o self segments self' Hrun Hne.
    pose proof (prepared_segments_tidy _ _ _ _ _ Hrun) as Htidy.
    pose proof (split_sentences_tidy ucd segments Hne Htidy) as Hs.
    assert (Forall (fun s => strip s = s /\ s <> [])
                   (split_sentences ucd segments)) as Htrim.
    { apply Forall_forall. intros s Hin. apply tidy_strip.
      apply (proj1 (Forall_forall _ _) Hs s Hin). }
    split; [exact Htrim|].
    rewrite paragraph_groups_concat. apply filter_map_trimmed.
    intros s Hin. apply (proj1 (Forall_forall _ _) Htrim s Hin).
  - intros segments. unfold format_paragraphs.
    rewrite paragraphs_of_groups. reflexivity.
  - apply paragraph_groups_concat.
  - apply paragraph_groups_nonempty.
  - intros sentences groups current Hloop Hne. unfold paragraph_groups.
    rewrite Hloop. destruct current; [contradiction | reflexivity].
Qed.

Lemma paragraphs_keep_sentences_witness :
  fst (prepared_segments
         (example_events
            [JObj [(key_segs, JArr (map fragment four_sentences))]])
         default_options init_stats)
  = Ok [lit "One. Two."; lit "Three. Four."] /\
  split_sentences ascii_db [lit "One. Two."; lit "Three. Four."]
  = four_sentences /\
  concat (paragraph_groups ascii_db
            (split_sentences ascii_db [lit "One. Two."; lit "Three. Four."]))
  = split_sentences ascii_db [lit "One. Two."; lit "Three. Four."] /\
  paragraph_groups ascii_db four_sentences
  = [[lit "One."; lit "Two."; lit "Three."]] ++ [[lit "Four."]].
Proof.
  destruct (paragraphs_keep_sentences ascii_db)
    as [_ [Hrun [_ [_ [_ Hrest]]]]].
  split; [reflexivity|]. split; [reflexivity|]. split.
  - apply (Hrun (example_events
                   [JObj [(key_segs, JArr (map fragment four_sentences))]])
                default_options init_stats
                [lit "One. Two."; lit "Three. Four."]
                (set_removed_duplicates 0 (set_original_segments 4 init_stats)));
      [reflexivity | discriminate].
  - apply Hrest; [reflexivity | discriminate].
Defined.

(** C5 as stated fails on a run without fragments: step (c) splits the
    empty text into one empty sentence, and the loop skips it, so no
    paragraph holds it. *)
Lemma paragraphs_skip_empty_sentence :
  fst (prepared_segments (example_events []) default_options init_stats)
    = Ok [] /\
  split_sentences ascii_db [] = [[]] /\
  paragraph_groups ascii_db (split_sentences ascii_db []) = [] /\
  concat (paragraph_groups ascii_db (split_sentences ascii_db []))
    <> split_sentences ascii_db [].
Proof.
  repeat split. vm_compute. discriminate.
Qed.

Lemma remove_spans_exhaustive_on_lines_witness :
  forallb dot (lit "[music] Hello (laughs) world <i>test</i>") = true /\
  has_span "[" "]"
    (remove_spans (lit "[music] Hello (laughs) world <i>test</i>")) = false /\
  has_span "(" ")"
    (remove_spans (lit "[music] Hello (laughs) world <i>test</i>")) = false /\
  has_span "<" ">"
    (remove_spans (lit "[music] Hello (laughs) world <i>test</i>")) = false.
Proof.
  split; [reflexivity|].
  destruct (remove_spans_exhaustive_on_lines
              (lit "[music] Hello (laughs) world <i>test</i>"))
    as [_ [_ [_ [_ H]]]].
  exact (H eq_refl).
Defined.

(* ================================================================= *)
(** ** _language_specific_cleaning for 'zh' *)

Lemma match_at_pair_two : forall a b prev c d s,
  match_at (re_pair a b) prev (c :: d :: s) false =
  if a c && b d
  then Some (MState (Some d) s 2 [(2, [d]); (1, [c])])
  else None.
Proof.
  intros a b prev c d s. unfold match_at, re_pair.
  cbn [run m_rest m_len m_caps m_prev].
  destruct (a c); [|reflexivity]. cbn [m_rest m_len m_caps m_prev].
  destruct (b d); reflexivity.
Qed.

Lemma match_at_pair_short : forall a b prev s,
  length s <= 1 -> match_at (re_pair a b) prev s false = None.
Proof.
  intros a b prev [|c [|d s]] H; [reflexivity | | simpl in H; lia].
  unfold match_at, re_pair. cbn [run m_rest m_len m_caps m_prev].
  destruct (a c); reflexivity.
Qed.

Section Pairs.

Variables a b : cp -> bool.
Hypothesis disjoint : forall c, b c = true -> a c = false.

Lemma space_between_cons : forall c d s,
  space_between a b (c :: d :: s) =
  if a c && b d then c :: 32%N :: space_between a b (d :: s)
  else c :: space_between a b (d :: s).
Proof. reflexivity. Qed.

Lemma space_between_after : forall d s,
  b d = true -> space_between a b (d :: s) = d :: space_between a b s.
Proof.
  intros d [|e s] H; [reflexivity|].
  rewrite space_between_cons, (disjoint d H). reflexivity.
Qed.

Lemma sub_from_pair : forall s prev,
  sub_from (re_pair a b) t_1_2 prev s 0 = space_between a b s.
Proof.
  induction s as [| c | c d s IHs IHds] using list_ind_two; intros prev.
  - reflexivity.
  - cbn [sub_from]. rewrite !match_at_pair_short by (simpl; lia). reflexivity.
  - rewrite space_between_cons. cbn [sub_from]. rewrite match_at_pair_two.
    destruct (a c && b d) eqn:E.
    + apply andb_true_iff in E. destruct E as [_ Hd].
      cbn [m_len expand t_1_2 map concat m_caps group Nat.eqb app].
      rewrite (space_between_after d s Hd), IHs. reflexivity.
    + f_equal. apply IHds.
Qed.

End Pairs.

Lemma adjacent_cons : forall a b c d s,
  adjacent a b (c :: d :: s) = (a c && b d) || adjacent a b (d :: s).
Proof. reflexivity. Qed.

Lemma space_between_head : forall a b d s,
  exists rest, space_between a b (d :: s) = d :: rest.
Proof.
  intros a b d [|e s]; [exists []; reflexivity|].
  rewrite space_between_cons. destruct (a d && b e); eexists; reflexivity.
Qed.

(** Putting spaces between [a] and [b] makes no character of [x] stand
    directly before one of [y] when the space is in neither class. *)
Lemma space_between_keeps_apart : forall a b x y s,
  x 32%N = false -> y 32%N = false ->
  adjacent x y s = false -> adjacent x y (space_between a b s) = false.
Proof.
  intros a b x y s Hx Hy.
  induction s as [| c | c d s IHs IHds] using list_ind_two; intros H;
    try reflexivity.
  rewrite adjacent_cons in H. apply orb_false_iff in H. destruct H as [Hcd Hrest].
  specialize (IHds Hrest). rewrite space_between_cons.
  destruct (space_between_head a b d s) as [rest E]. rewrite E in *.
  destruct (a c && b d).
  - change (adjacent x y (c :: 32%N :: d :: rest))
      with ((x c && y 32%N) || ((x 32%N && y d) || adjacent x y (d :: rest))).
    rewrite Hx, Hy, IHds, andb_false_r. reflexivity.
  - rewrite adjacent_cons, Hcd, IHds. reflexivity.
Qed.

(** And it leaves no character of [a] directly before one of [b]. *)
Lemma space_between_separates : forall a b s,
  a 32%N = false -> b 32%N = false ->
  adjacent a b (space_between a b s) = false.
Proof.
  intros a b s Ha Hb.
  induction s as [| c | c d s IHs IHds] using list_ind_two;
    try reflexivity.
  rewrite space_between_cons.
  destruct (space_between_head a b d s) as [rest E]. rewrite E in *.
  destruct (a c && b d) eqn:Hcd.
  - change (adjacent a b (c :: 32%N :: d :: rest))
      with ((a c && b 32%N) || ((a 32%N && b d) || adjacent a b (d :: rest))).
    rewrite Ha, Hb, IHds, andb_false_r. reflexivity.
  - rewrite adjacent_cons, Hcd, IHds. reflexivity.
Qed.

Lemma latin_not_cjk : forall c, cjk c = true -> latin_alnum c = false.
Proof.
  intros c H. unfold cjk, in_range in H. apply andb_true_iff in H.
  destruct H as [H _]. apply N.leb_le in H.
  unfold latin_alnum, ascii_lower, ascii_upper, ascii_digit, in_range.
  repeat rewrite orb_false_iff. repeat split;
    apply andb_false_iff; right; apply N.leb_gt; lia.
Qed.

Lemma cjk_not_latin : forall c, latin_alnum c = true -> cjk c = false.
Proof.
  intros c H. destruct (cjk c) eqn:E; [|reflexivity].
  rewrite (latin_not_cjk c E) in H. discriminate H.
Qed.

(** With language code 'zh' the text returned is the text after the first
    substitution with one space put between every ideograph and a Latin
    letter or digit directly after it, and then between every Latin
    letter or digit and an ideograph directly after it; in the result no
    ideograph stands next to a Latin letter or digit. *)
Theorem zh_separates_scripts : forall text : pystr,
  exists out,
    language_specific_cleaning text (lit "zh") = Ok out /\
    out = space_between latin_alnum cjk
            (space_between cjk latin_alnum
               (sub (re_spaced_pair cjk cjk) t_12 text)) /\
    adjacent cjk latin_alnum out = false /\
    adjacent latin_alnum cjk out = false.
Proof.
  intros text. eexists. split; [|split; [reflexivity|split]].
  - unfold language_specific_cleaning. cbn [eqb]. 
    change (eqb (lit "zh") (lit "zh")) with true. cbv iota.
    unfold sub. rewrite (sub_from_pair cjk latin_alnum cjk_not_latin).
    rewrite (sub_from_pair latin_alnum cjk latin_not_cjk). reflexivity.
  - apply space_between_keeps_apart; try reflexivity.
    apply space_between_separates; reflexivity.
  - apply space_between_separates; reflexivity.
Qed.

(* ================================================================= *)
(** ** Further properties of the program *)

(** *** extract_text_segments: what it returns and what it records *)

Lemma extract_text_segments_stats : forall data self segments self',
  extract_text_segments data self = (Ok segments, self') ->
  self' = set_original_segments (length segments) self.
Proof.
  intros data self segments self' H.
  unfold extract_text_segments, bind, lift, modify, ret in H.
  destruct (py_get data key_events) as [events|e]; [|discriminate].
  destruct (py_iter events) as [items|e]; [|discriminate].
  destruct (for_each extract_event items []) as [out|e]; [|discriminate].
  injection H as <- <-. reflexivity.
Qed.

Lemma extract_text_segments_failure : forall data self e self',
  extract_text_segments data self = (Raise e, self') -> self' = self.
Proof.
  intros data self e self' H.
  unfold extract_text_segments, bind, lift, modify, ret in H.
  destruct (py_get data key_events) as [events|e1];
    [|injection H as _ <-; reflexivity].
  destruct (py_iter events) as [items|e2];
    [|injection H as _ <-; reflexivity].
  destruct (for_each extract_event items []) as [out|e3];
    [discriminate | injection H as _ <-; reflexivity].
Qed.

(** Every fragment [extract_text_segments] returns is non-empty and has no
    whitespace at either end, and the only thing recorded is their
    number; when it raises, nothing is recorded.  A [dict] without the
    key ['events'] gives no fragment. *)
Theorem extracted_fragments_are_trimmed :
  forall (data : json) (self : stats),
    match extract_text_segments data self with
    | (Ok segments, self') =>
        Forall (fun s => strip s = s /\ s <> []) segments /\
        self' = set_original_segments (length segments) self
    | (Raise _, self') => self' = self
    end /\
    (forall fields,
        lookup key_events fields = None ->
        extract_text_segments (JObj fields) self
        = (Ok [], set_original_segments 0 self)).
Proof.
  intros data self. split.
  - destruct (extract_text_segments data self) as [[segments|e] self'] eqn:E.
    + split.
      * apply Forall_forall. intros s Hin. apply tidy_strip.
        apply (proj1 (Forall_forall _ _)
                     (extract_text_segments_tidy _ _ _ _ E) s Hin).
      * apply (extract_text_segments_stats _ _ _ _ E).
    + apply (extract_text_segments_failure _ _ _ _ E).
  - intros fields H.
    unfold extract_text_segments, bind, lift, modify, ret. cbn [py_get].
    rewrite H. reflexivity.
Qed.

(** *** remove_duplicates: nothing but repeats is lost *)

Lemma dedup_after_subsequence : forall rest x,
  subsequence (fst (dedup_after x rest)) rest.
Proof.
  induction rest as [|y rest IH]; intros x; cbn [dedup_after].
  - constructor.
  - specialize (IH y). destruct (dedup_after y rest) as [out n].
    cbn [fst] in IH. destruct (eqb y x); cbn [fst]; constructor; exact IH.
Qed.

Lemma subsequence_In : forall out l x,
  subsequence out l -> In x out -> In x l.
Proof.
  intros out l x H. induction H as [| y out l H IH | y out l H IH]; intros Hin.
  - exact Hin.
  - destruct Hin as [<- | Hin]; [left; reflexivity | right; apply IH; exact Hin].
  - right. apply IH. exact Hin.
Qed.

Lemma dedup_after_members : forall rest x y,
  In y rest -> In y (x :: fst (dedup_after x rest)).
Proof.
  induction rest as [|z rest IH]; intros x y Hin; [contradiction|].
  cbn [dedup_after]. pose proof (IH z y) as IHz.
  destruct (dedup_after z rest) as [out n]. cbn [fst] in IHz.
  destruct (eqb z x) eqn:E; cbn [fst].
  - apply eqb_eq in E. subst z.
    destruct Hin as [<- | Hin]; [left; reflexivity | apply IHz; exact Hin].
  - destruct Hin as [<- | Hin]; [right; left; reflexivity|].
    right. apply IHz. exact Hin.
Qed.

Lemma dedup_after_distinct_input : forall rest x,
  no_adjacent_equal (x :: rest) -> dedup_after x rest = (rest, 0).
Proof.
  induction rest as [|y rest IH]; intros x H; [reflexivity|].
  cbn [dedup_after].
  assert (eqb y x = false) as E.
  { apply eqb_neq. intros ->. apply (H 0 x x); reflexivity. }
  rewrite IH, E; [reflexivity|].
  intros i a b Ha Hb. apply (H (S i) a b); assumption.
Qed.

(** The output of [remove_duplicates] is the input with some fragments
    left out: it begins with the same fragment, holds the same fragments
    in the same order, and is the input itself, with nothing counted,
    when no two neighbours of the input are equal. *)
Theorem remove_duplicates_keeps_fragments :
  forall (segments : list pystr) (self : stats),
    exists out,
      fst (remove_duplicates segments self) = Ok out /\
      subsequence out segments /\
      (forall x, In x out <-> In x segments) /\
      hd_error out = hd_error segments /\
      (no_adjacent_equal segments ->
       out = segments /\
       (segments <> [] ->
        removed_duplicates_count (snd (remove_duplicates segments self)) = 0)).
Proof.
  intros [|x rest] self.
  - exists []. split; [reflexivity|]. split; [constructor|].
    split; [intros x; split; intros Hx; exact Hx|].
    split; [reflexivity|]. intros _. split; [reflexivity|].
    intros Hne. contradiction.
  - exists (x :: fst (dedup_after x rest)).
    rewrite remove_duplicates_cons. cbn [fst snd].
    pose proof (dedup_after_subsequence rest x) as Hsub.
    split; [reflexivity|]. split; [constructor; exact Hsub|].
    split; [|split; [reflexivity|]].
    + intros y. split.
      * apply subsequence_In. constructor. exact Hsub.
      * intros [<- | Hin]; [left; reflexivity|].
        apply dedup_after_members. exact Hin.
    + intros H. rewrite (dedup_after_distinct_input rest x H).
      split; [reflexivity | intros _; reflexivity].
Qed.

(** *** merge_consecutive_segments: when it does nothing, and how much it does *)

Lemma merge_from_half : forall min_length l,
  length l <= 2 * length (merge_from min_length l).
Proof.
  intros min_length.
  induction l as [| x | x y l IHl IHyl] using list_ind_two.
  - simpl. lia.
  - simpl. lia.
  - rewrite merge_from_two.
    destruct (Z.of_nat (length x) <? min_length)%Z; cbn [length] in *; lia.
Qed.

Lemma merge_from_unchanged : forall min_length l,
  merge_from min_length l = l <->
  all_but_last (fun s => (min_length <= Z.of_nat (length s))%Z) l.
Proof.
  intros min_length.
  induction l as [| x | x y l IHl IHyl] using list_ind_two.
  - split; [intros _; exact I | reflexivity].
  - split; [intros _; exact I | reflexivity].
  - rewrite merge_from_two.
    change (all_but_last (fun s => (min_length <= Z.of_nat (length s))%Z)
                         (x :: y :: l))
      with ((min_length <= Z.of_nat (length x))%Z /\
            all_but_last (fun s => (min_length <= Z.of_nat (length s))%Z)
                         (y :: l)).
    destruct (Z.of_nat (length x) <? min_length)%Z eqn:E.
    + apply Z.ltb_lt in E. split.
      * intros H. apply (f_equal (@length pystr)) in H.
        pose proof (merge_from_length min_length l) as Hlen.
        cbn [length] in H. lia.
      * intros [H _]. lia.
    + apply Z.ltb_ge in E. split.
      * intros H. injection H as H. split; [exact E | apply IHyl; exact H].
      * intros [_ H]. f_equal. apply IHyl. exact H.
Qed.

(** [merge_consecutive_segments] joins at most two fragments into one, so
    the output has at least half as many fragments as the input and is
    empty only for the empty input; it returns the input unchanged
    exactly when every fragment but the last is at least [min_length]
    long, which is so whenever [min_length] is zero or negative. *)
Theorem merge_extent :
  forall (segments : list pystr) (min_length : Z),
    length segments
      <= 2 * length (merge_consecutive_segments segments min_length) /\
    (merge_consecutive_segments segments min_length = [] <-> segments = []) /\
    (merge_consecutive_segments segments min_length = segments <->
     all_but_last (fun s => (min_length <= Z.of_nat (length s))%Z) segments) /\
    ((min_length <= 0)%Z ->
     merge_consecutive_segments segments min_length = segments).
Proof.
  intros segments min_length. rewrite merge_consecutive_segments_from.
  split; [apply merge_from_half|]. split; [|split].
  - split; [apply merge_from_nil | intros ->; reflexivity].
  - apply merge_from_unchanged.
  - intros H. apply merge_from_unchanged.
    clear -H. induction segments as [| x | x y l IHl IHyl] using list_ind_two;
      try exact I.
    split; [lia | exact IHyl].
Qed.

(** *** process_file: the statistics and the part of the merge step *)

Section Process.

Variable ucd : unicode_db.

Lemma format_paragraphs_merged : forall segments min_length,
  format_paragraphs ucd (merge_consecutive_segments segments min_length)
  = format_paragraphs ucd segments.
Proof.
  intros segments min_length.
  unfold format_paragraphs, split_sentences, punctuated_text.
  rewrite merge_consecutive_segments_from, merge_from_join. reflexivity.
Qed.

Lemma text_of_merged : forall (format : bool) segments min_length,
  (if format
   then format_paragraphs ucd (merge_consecutive_segments segments min_length)
   else join space (merge_consecutive_segments segments min_length))
  = (if format then format_paragraphs ucd segments else join space segments).
Proof.
  intros [|] segments min_length.
  - apply format_paragraphs_merged.
  - rewrite merge_consecutive_segments_from. apply merge_from_join.
Qed.

Lemma process_data_tail : forall data o self,
  process_data ucd data o self =
  match prepared_segments data o self with
  | (Ok segments, self') =>
      match clean_text (if opt_format_paragraphs o
                        then format_paragraphs ucd segments
                        else join space segments) (opt_language_code o) with
      | Ok text =>
          (Ok text, set_totals (length segments) (length text)
                               (length (split_words text [])) self')
      | Raise e => (Raise e, self')
      end
  | (Raise e, self') => (Raise e, self')
  end.
Proof.
  intros data o self. rewrite process_data_prepared. unfold bind at 1.
  destruct (prepared_segments data o self) as [[segments|e] self'];
    [|reflexivity].
  unfold bind, lift, modify, ret.
  destruct (clean_text _ (opt_language_code o)); reflexivity.
Qed.

Lemma prepared_segments_steps : forall data o self,
  prepared_segments data o self =
  match load_json3_file data self with
  | (Ok d, s1) =>
      match extract_text_segments d s1 with
      | (Ok segs, s2) =>
          match (if opt_merge_duplicates o then remove_duplicates segs
                 else ret segs) s2 with
          | (Ok segs', s3) =>
              (Ok (if (0 <? opt_min_segment_length o)%Z
                   then merge_consecutive_segments segs'
                          (opt_min_segment_length o)
                   else segs'), s3)
          | (Raise e, s3) => (Raise e, s3)
          end
      | (Raise e, s2) => (Raise e, s2)
      end
  | (Raise e, s1) => (Raise e, s1)
  end.
Proof.
  intros data o self. unfold prepared_segments, bind, ret.
  destruct (load_json3_file data self) as [[d|e] s1]; [|reflexivity].
  destruct (extract_text_segments d s1) as [[segs|e] s2]; [|reflexivity].
  destruct ((if opt_merge_duplicates o then remove_duplicates segs
             else fun s => (Ok segs, s)) s2) as [[segs'|e] s3]; reflexivity.
Qed.

Lemma load_json3_file_stats : forall data self r self',
  load_json3_file data self = (r, self') -> self' = self.
Proof.
  intros data self r self' H. unfold load_json3_file, bind, lift, raise, ret in H.
  destruct (py_in key_events data) as [[|]|e]; cbn [negb] in H.
  - destruct (py_getitem data key_events) as [events|e].
    + destruct (py_len events); injection H as _ <-; reflexivity.
    + injection H as _ <-. reflexivity.
  - injection H as _ <-. reflexivity.
  - injection H as _ <-. reflexivity.
Qed.

Lemma remove_duplicates_effect : forall segs self,
  exists out n,
    remove_duplicates segs self =
    (Ok out, match segs with
             | [] => self
             | _ :: _ => set_removed_duplicates n self
             end) /\
    n + length out = length segs.
Proof.
  intros [|x rest] self.
  - exists [], 0. split; reflexivity.
  - exists (x :: fst (dedup_after x rest)), (snd (dedup_after x rest)).
    rewrite remove_duplicates_cons. split; [reflexivity|].
    pose proof (dedup_after_length rest x). cbn [length]. lia.
Qed.

Lemma merged_or_not_length : forall (c : bool) segs min_length,
  length (if c then merge_consecutive_segments segs min_length else segs)
  <= length segs.
Proof.
  intros [|] segs min_length; [|lia].
  rewrite merge_consecutive_segments_from. apply merge_from_length.
Qed.

Lemma text_of_merged_or_not : forall (format c : bool) segs min_length,
  (if format
   then format_paragraphs ucd
          (if c then merge_consecutive_segments segs min_length else segs)
   else join space
          (if c then merge_consecutive_segments segs min_length else segs))
  = (if format then format_paragraphs ucd segs else join space segs).
Proof.
  intros format [|] segs min_length; [apply text_of_merged | reflexivity].
Qed.

End Process.

(** What [process_file] has recorded when it reaches the write of the
    output file, and what it has recorded when it raises before. *)
Lemma process_data_statistics :
  forall (ucd : unicode_db) (data : json) (o : options) (self : stats),
    match process_data ucd data o self with
    | (Ok text, st) =>
        total_characters st = length text /\
        total_words st = length (split_words text []) /\
        processed_segments st <= original_segments st /\
        removed_timestamps st = removed_timestamps self /\
        (opt_merge_duplicates o = true -> 0 < original_segments st ->
         processed_segments st + removed_duplicates_count st
         <= original_segments st) /\
        (removed_duplicates_count self = 0 ->
         processed_segments st + removed_duplicates_count st
         <= original_segments st)
    | (Raise _, st) =>
        processed_segments st = processed_segments self /\
        total_characters st = total_characters self /\
        total_words st = total_words self /\
        removed_timestamps st = removed_timestamps self
    end.
Proof.
  intros ucd data o self.
  rewrite process_data_tail, prepared_segments_steps.
  destruct (load_json3_file data self) as [[d|e] s1] eqn:El;
    pose proof (load_json3_file_stats _ _ _ _ El) as ->;
    [|repeat split].
  destruct (extract_text_segments d self) as [[segs|e] s2] eqn:Ex.
  2:{ rewrite (extract_text_segments_failure _ _ _ _ Ex). repeat split. }
  rewrite (extract_text_segments_stats _ _ _ _ Ex). clear Ex El.
  set (s2' := set_original_segments (length segs) self).
  assert (exists segs' s3,
             (if opt_merge_duplicates o then remove_duplicates segs
              else ret segs) s2' = (Ok segs', s3) /\
             length segs' <= length segs /\
             original_segments s3 = length segs /\
             processed_segments s3 = processed_segments self /\
             total_characters s3 = total_characters self /\
             total_words s3 = total_words self /\
             removed_timestamps s3 = removed_timestamps self /\
             (opt_merge_duplicates o = true -> 0 < length segs ->
              length segs' + removed_duplicates_count s3 <= length segs) /\
             (removed_duplicates_count self = 0 ->
              length segs' + removed_duplicates_count s3 <= length segs))
    as [segs' [s3 [Ed [Hlen [Ho [Hp [Hc [Hw [Ht [Hd Hz]]]]]]]]]].
  { destruct (opt_merge_duplicates o).
    - destruct (remove_duplicates_effect segs s2') as [out [n [E Hn]]].
      exists out. eexists. split; [exact E|].
      destruct segs as [|x rest]; cbn in *; repeat split; try lia.
    - exists segs, s2'. split; [reflexivity|].
      cbn. repeat split; try lia; try discriminate. }
  rewrite Ed.
  pose proof (merged_or_not_length (0 <? opt_min_segment_length o)%Z segs'
                (opt_min_segment_length o)) as Hm.
  destruct (clean_text _ (opt_language_code o)) as [text|e].
  - cbn [set_totals total_characters total_words processed_segments
         original_segments removed_timestamps removed_duplicates_count].
    split; [reflexivity|]. split; [reflexivity|]. split; [lia|].
    split; [exact Ht|]. split.
    + intros H1 H2. rewrite Ho in H2. specialize (Hd H1 H2). lia.
    + intros H1. specialize (Hz H1). lia.
  - repeat split; assumption.
Qed.

(** On success [process_file] has recorded the length of the text and
    its number of words, and at most as many processed fragments as
    extracted ones, the removed duplicates included when duplicates were
    removed from at least one fragment or the counter was zero before;
    the timestamp counter is never written.  A run that fails before the
    write leaves the counts of processed fragments, characters and words
    as they were (nothing at all is recorded when the input cannot be
    read); a run that fails in the write has already recorded the counts
    of the text it could not write. *)
Theorem process_statistics :
  forall (ucd : unicode_db) (fs : file_system) (o : options) (self : stats),
    removed_timestamps (snd (process_file ucd fs o self))
    = removed_timestamps self /\
    match process_file ucd fs o self with
    | (Ok text, st) =>
        total_characters st = length text /\
        total_words st = length (split_words text []) /\
        processed_segments st <= original_segments st /\
        (opt_merge_duplicates o = true -> 0 < original_segments st ->
         processed_segments st + removed_duplicates_count st
         <= original_segments st) /\
        (removed_duplicates_count self = 0 ->
         processed_segments st + removed_duplicates_count st
         <= original_segments st)
    | (Raise e, st) =>
        match fs_load fs with
        | Raise e' => e = e' /\ st = self
        | Ok data =>
            match process_data ucd data o self with
            | (Raise e', st') =>
                e = e' /\ st = st' /\
                processed_segments st = processed_segments self /\
                total_characters st = total_characters self /\
                total_words st = total_words self
            | (Ok text, st') =>
                fs_save fs text = Raise e /\ st = st' /\
                total_characters st = length text /\
                total_words st = length (split_words text []) /\
                processed_segments st <= original_segments st
            end
        end
    end.
Proof.
  intros ucd [[data|e0] save] o self; cbn [fs_load fs_save].
  - rewrite process_file_steps.
    pose proof (process_data_statistics ucd data o self) as H.
    destruct (process_data ucd data o self) as [[text|e] st].
    + destruct H as [Hc [Hw [Hp [Ht [Hd Hz]]]]].
      destruct (save text) as [u|e] eqn:Es; cbn [snd].
      * split; [exact Ht|]. repeat split; assumption.
      * split; [exact Ht|]. repeat split; assumption.
    + destruct H as [Hp [Hc [Hw Ht]]]. cbn [snd].
      split; [exact Ht|]. repeat split; assumption.
  - unfold process_file, bind, lift. cbn [fs_load snd].
    split; [reflexivity | split; reflexivity].
Qed.

(** The merge step never changes the text: whatever the minimum segment
    length, [process_file] produces the same text or the same failure,
    and the same statistics but for the number of processed fragments. *)
Theorem merge_step_leaves_text :
  forall (ucd : unicode_db) (data : json) (o : options) (self : stats) (m : Z),
    fst (process_data ucd data (with_min_segment_length m o) self)
    = fst (process_data ucd data o self) /\
    original_segments
      (snd (process_data ucd data (with_min_segment_length m o) self))
    = original_segments (snd (process_data ucd data o self)) /\
    removed_duplicates_count
      (snd (process_data ucd data (with_min_segment_length m o) self))
    = removed_duplicates_count (snd (process_data ucd data o self)) /\
    total_characters
      (snd (process_data ucd data (with_min_segment_length m o) self))
    = total_characters (snd (process_data ucd data o self)) /\
    total_words
      (snd (process_data ucd data (with_min_segment_length m o) self))
    = total_words (snd (process_data ucd data o self)).
Proof.
  intros ucd data o self m.
  rewrite !process_data_tail, !prepared_segments_steps.
  cbn [with_min_segment_length opt_merge_duplicates opt_min_segment_length
       opt_format_paragraphs opt_language_code].
  destruct (load_json3_file data self) as [[d|e] s1]; [|repeat split].
  destruct (extract_text_segments d s1) as [[segs|e] s2]; [|repeat split].
  destruct ((if opt_merge_duplicates o then remove_duplicates segs
             else ret segs) s2) as [[segs'|e] s3]; [|repeat split].
  rewrite !text_of_merged_or_not.
  destruct (clean_text _ (opt_language_code o)) as [text|e]; repeat split.
Qed.

(** *** Groups of three *)

Lemma all_but_last_cons : forall (A : Type) (P : A -> Prop) x l,
  P x -> all_but_last P l -> all_but_last P (x :: l).
Proof. intros A P x [|y l] Hx Hl; [exact I | split; assumption]. Qed.

Lemma all_but_last_tail : forall (A : Type) (P : A -> Prop) x l,
  all_but_last P (x :: l) -> all_but_last P l.
Proof. intros A P x [|y l] H; [exact I | apply H]. Qed.

Lemma all_but_last_head : forall (A : Type) (P : A -> Prop) x y l,
  all_but_last P (x :: y :: l) -> P x.
Proof. intros A P x y l H. apply H. Qed.

Lemma all_but_last_map : forall (A B : Type) (P : A -> Prop) (Q : B -> Prop)
                                (f : A -> B) l,
  (forall x, P x -> Q (f x)) ->
  all_but_last P l -> all_but_last Q (map f l).
Proof.
  intros A B P Q f l Hf. induction l as [|x l IH]; intros H; [exact I|].
  destruct l as [|y l]; [exact I|]. destruct H as [Hx Hl].
  split; [apply Hf; exact Hx | apply IH; exact Hl].
Qed.

Lemma chunk3_three : forall (A : Type) (a b c : A) rest,
  chunk3 (a :: b :: c :: rest) = [a; b; c] :: chunk3 rest.
Proof. reflexivity. Qed.

Lemma chunk3_sizes : forall (A : Type) (n : nat) (l : list A),
  length l <= n ->
  all_but_last (fun g => length g = 3) (chunk3 l) /\
  Forall (fun g => 1 <= length g <= 3) (chunk3 l) /\
  length l <= 3 * length (chunk3 l) /\
  3 * length (chunk3 l) < length l + 3.
Proof.
  intros A. induction n as [|n IH]; intros l Hn.
  - destruct l; [|simpl in Hn; lia]. cbn. repeat split; try lia. constructor.
  - destruct l as [|a [|b [|c rest]]].
    + cbn. repeat split; try lia. constructor.
    + cbn. repeat split; try lia. constructor; [cbn; lia | constructor].
    + cbn. repeat split; try lia. constructor; [cbn; lia | constructor].
    + rewrite chunk3_three. cbn [length] in Hn.
      destruct (IH rest) as [H1 [H2 [H3 H4]]]; [lia|].
      split; [apply all_but_last_cons; [reflexivity | exact H1]|].
      split; [constructor; [cbn; lia | exact H2]|].
      cbn [length]. lia.
Qed.

(** *** The sentences of step (c) end in a sentence-ending character *)

Lemma ends_in_snoc : forall (p : cp -> bool) x c, ends_in p (x ++ [c]) = p c.
Proof.
  intros p x c. unfold ends_in. rewrite rev_app_distr. reflexivity.
Qed.

Lemma ends_in_inv : forall (p : cp -> bool) x,
  ends_in p x = true -> exists x0 c, x = x0 ++ [c] /\ p c = true.
Proof.
  intros p x H. unfold ends_in in H.
  destruct (rev x) as [|c r] eqn:E; [discriminate H|].
  exists (rev r), c. split; [|exact H].
  rewrite <- (rev_involutive x), E. reflexivity.
Qed.

Lemma lstrip_keeps_end : forall x c,
  isspace c = false -> exists y, lstrip (x ++ [c]) = y ++ [c].
Proof.
  induction x as [|d x IH]; intros c Hc.
  - exists []. cbn. rewrite Hc. reflexivity.
  - cbn [app lstrip]. destruct (isspace d).
    + apply IH. exact Hc.
    + exists (d :: x). reflexivity.
Qed.

Lemma strip_keeps_end : forall x,
  ends_in sentence_end x = true -> ends_in sentence_end (strip x) = true.
Proof.
  intros x H. destruct (ends_in_inv _ _ H) as [x0 [c [-> Hc]]].
  assert (isspace c = false) as Hs.
  { destruct (isspace c) eqn:E; [|reflexivity].
    rewrite (space_not_sentence_end c E) in Hc. discriminate Hc. }
  destruct (lstrip_keeps_end x0 c Hs) as [y Hy].
  unfold strip, rstrip. rewrite Hy, rev_app_distr. cbn [rev app lstrip].
  rewrite Hs. cbn [rev]. rewrite rev_involutive, ends_in_snoc. exact Hc.
Qed.

Lemma no_gap_at_end : forall prev adv,
  match_at re_sentence_gap prev [] adv = None.
Proof.
  intros prev adv.
  destruct (match_at re_sentence_gap prev [] adv) as [m|] eqn:E; [|reflexivity].
  destruct (match_at_sentence_gap _ _ _ _ E) as [p [c [s' [_ [_ [H _]]]]]].
  discriminate H.
Qed.

Lemma split_from_ends : forall s prev skip cur,
  gap_state prev s skip cur ->
  all_but_last (fun piece => ends_in sentence_end piece = true)
               (split_from re_sentence_gap prev s skip cur).
Proof.
  induction s as [|c s IH]; intros prev skip cur Hst.
  - cbn [split_from]. destruct skip; [|exact I].
    rewrite no_gap_at_end. exact I.
  - cbn [split_from]. destruct skip as [|n].
    + cbn [gap_state] in Hst.
      destruct (match_at re_sentence_gap prev (c :: s) false) as [m|] eqn:E.
      * destruct (match_at_sentence_gap _ _ _ _ E)
          as [p [c' [s' [Hprev [Hp [Hs [Hc Hlen]]]]]]].
        injection Hs as <- <-. rewrite Hlen.
        destruct (Hst p Hprev Hp) as [cur' ->].
        apply all_but_last_cons.
        -- cbn [rev]. rewrite ends_in_snoc. exact Hp.
        -- apply IH. destruct (prefix_len isspace s) as [|k] eqn:Ek.
           ++ intros q Hq Hqe. injection Hq as <-.
              rewrite (space_not_sentence_end c Hc) in Hqe. discriminate Hqe.
           ++ cbn [gap_state]. lia.
      * apply IH. intros q Hq _. injection Hq as <-. exists cur. reflexivity.
    + cbn [gap_state prefix_len] in Hst.
      destruct (isspace c) eqn:Hc; [|lia].
      apply IH. destruct n as [|k].
      * intros q Hq Hqe. injection Hq as <-.
        rewrite (space_not_sentence_end c Hc) in Hqe. discriminate Hqe.
      * cbn [gap_state]. lia.
Qed.

Lemma split_sentences_end : forall ucd segments,
  all_but_last (fun s => ends_in sentence_end (strip s) = true)
               (split_sentences ucd segments).
Proof.
  intros ucd segments. unfold split_sentences, split.
  assert (all_but_last (fun piece => ends_in sentence_end piece = true)
            (split_from re_sentence_gap None (punctuated_text ucd segments) 0 []))
    as H.
  { apply split_from_ends. intros p Hp. discriminate Hp. }
  revert H. generalize (split_from re_sentence_gap None
                          (punctuated_text ucd segments) 0 []).
  induction l as [|x l IH]; intros H; [exact I|].
  destruct l as [|y l]; [exact I|]. destruct H as [Hx Hl].
  split; [apply strip_keeps_end; exact Hx | apply IH; exact Hl].
Qed.

(** *** The paragraph loop closes a paragraph at every third sentence *)

Section Threes.

Variable ucd : unicode_db.

Lemma paragraph_groups_close : forall sentences,
  paragraph_groups ucd sentences =
  close_groups (fold_left (group_step ucd) sentences ([], [])).
Proof.
  intros sentences. unfold paragraph_groups, close_groups.
  destruct (fold_left (group_step ucd) sentences ([], [])) as [groups current].
  reflexivity.
Qed.

Lemma chunk3_short : forall (cur : list pystr),
  length cur <= 3 ->
  chunk3 cur = match cur with [] => [] | _ :: _ => [cur] end.
Proof.
  intros [|a [|b [|c [|d rest]]]] H; try reflexivity. simpl in H. lia.
Qed.

Lemma chunk3_full : forall (cur : list pystr) x rest,
  length cur = 2 -> chunk3 (cur ++ x :: rest) = (cur ++ [x]) :: chunk3 rest.
Proof.
  intros [|a [|b [|c cur]]] x rest H; try discriminate H. reflexivity.
Qed.

Lemma closes_paragraph_short : forall cur s,
  length cur < 3 -> closes_paragraph ucd cur s = false.
Proof.
  intros cur s H. unfold closes_paragraph.
  destruct (Nat.leb_spec 3 (length cur)); [lia | reflexivity].
Qed.

Lemma closes_paragraph_ended : forall cur s,
  3 <= length cur -> ends_in sentence_end s = true ->
  closes_paragraph ucd cur s = true.
Proof.
  intros cur s H Hs. unfold closes_paragraph. rewrite Hs.
  destruct (Nat.leb_spec 3 (length cur)); [reflexivity | lia].
Qed.

Lemma group_loop_chunks : forall sentences groups cur,
  length cur < 3 ->
  all_but_last (fun s => ends_in sentence_end (strip s) = true) sentences ->
  close_groups (fold_left (group_step ucd) sentences (groups, cur)) =
  groups ++ chunk3 (cur ++ filter truthy (map strip sentences)).
Proof.
  induction sentences as [|s sentences IH]; intros groups cur Hcur Hall.
  - cbn [fold_left map filter]. rewrite app_nil_r, chunk3_short by lia.
    unfold close_groups. cbn [fst snd]. destruct cur; [|reflexivity].
    rewrite app_nil_r. reflexivity.
  - cbn [fold_left map filter]. unfold group_step at 2.
    pose proof (all_but_last_tail _ _ _ _ Hall) as Htail.
    destruct (truthy (strip s)) eqn:Ht; [|apply IH; assumption].
    destruct (Nat.eq_dec (length cur) 2) as [H2 | H2].
    + rewrite chunk3_full by exact H2.
      destruct (closes_paragraph ucd (cur ++ [strip s]) (strip s)) eqn:Ec.
      * rewrite IH by (try assumption; cbn; lia).
        cbn [app]. rewrite <- app_assoc. reflexivity.
      * destruct sentences as [|s2 sentences].
        -- cbn [fold_left map filter chunk3]. unfold close_groups.
           cbn [fst snd]. destruct (cur ++ [strip s]) eqn:E; [|reflexivity].
           apply app_eq_nil in E. destruct E as [_ E]. discriminate E.
        -- pose proof (all_but_last_head _ _ _ _ _ Hall) as Hs.
           rewrite closes_paragraph_ended in Ec;
             [discriminate Ec | rewrite length_app; cbn; lia | exact Hs].
    + rewrite closes_paragraph_short by (rewrite length_app; cbn; lia).
      rewrite IH by (try assumption; rewrite length_app; cbn; lia).
      rewrite <- app_assoc. reflexivity.
Qed.

End Threes.

(** [format_paragraphs] puts the non-empty trimmed sentences into
    paragraphs of three, in order, the last paragraph holding the one to
    three sentences that are left: every sentence of step (c) but the
    last ends in '.', '!' or '?', so the test for discourse markers never
    changes where a paragraph ends. *)
Theorem paragraphs_of_three_sentences :
  forall (ucd : unicode_db) (segments : list pystr),
    paragraph_groups ucd (split_sentences ucd segments)
    = chunk3 (filter truthy (map strip (split_sentences ucd segments))) /\
    format_paragraphs ucd segments
    = join paragraph_sep
        (map (join space)
           (chunk3 (filter truthy (map strip (split_sentences ucd segments))))) /\
    all_but_last (fun g => length g = 3)
                 (paragraph_groups ucd (split_sentences ucd segments)) /\
    Forall (fun g => 1 <= length g <= 3)
           (paragraph_groups ucd (split_sentences ucd segments)) /\
    length (filter truthy (map strip (split_sentences ucd segments)))
    <= 3 * length (paragraph_groups ucd (split_sentences ucd segments)) /\
    3 * length (paragraph_groups ucd (split_sentences ucd segments))
    < length (filter truthy (map strip (split_sentences ucd segments))) + 3.
Proof.
  intros ucd segments.
  assert (paragraph_groups ucd (split_sentences ucd segments)
          = chunk3 (filter truthy (map strip (split_sentences ucd segments))))
    as E.
  { rewrite paragraph_groups_close.
    rewrite (group_loop_chunks ucd _ [] []);
      [reflexivity | cbn; lia | apply split_sentences_end]. }
  split; [exact E|]. split.
  - unfold format_paragraphs. rewrite paragraphs_of_groups, E. reflexivity.
  - rewrite E.
    apply (chunk3_sizes _ _ _ (Nat.le_refl _)).
Qed.

(** *** The whitespace of the cleaned text *)

Lemma adjacent_first : forall a b x l,
  adjacent a b (x :: l) = (a x && first_in b l) || adjacent a b l.
Proof.
  intros a b x [|y l]; [|reflexivity].
  cbn. rewrite andb_false_r. reflexivity.
Qed.

Lemma collapse_from_runs : forall s,
  adjacent isspace isspace (collapse_from s 0) = false /\
  adjacent isspace isspace (collapse_from s (prefix_len isspace s)) = false /\
  first_in isspace (collapse_from s (prefix_len isspace s)) = false.
Proof.
  induction s as [|c s [IH0 [IHp IHf]]]; [repeat split|].
  assert (adjacent isspace isspace (collapse_from (c :: s) 0) = false) as H0.
  { cbn [collapse_from]. destruct (isspace c) eqn:Hc.
    - change (space ++ collapse_from s (prefix_len isspace s))
        with (32%N :: collapse_from s (prefix_len isspace s)).
      rewrite adjacent_first, IHf, IHp. reflexivity.
    - rewrite adjacent_first, Hc, IH0. reflexivity. }
  split; [exact H0|].
  cbn [prefix_len]. destruct (isspace c) eqn:Hc.
  - cbn [collapse_from]. split; assumption.
  - split; [exact H0|]. cbn [collapse_from]. rewrite Hc. cbn [first_in].
    exact Hc.
Qed.

Lemma first_in_app : forall b l1 l2,
  l1 <> [] -> first_in b (l1 ++ l2) = first_in b l1.
Proof. intros b [|x l1] l2 H; [contradiction | reflexivity]. Qed.

Lemma adjacent_app_right : forall a b l1 l2,
  adjacent a b (l1 ++ l2) = false -> adjacent a b l2 = false.
Proof.
  intros a b. induction l1 as [|x l1 IH]; intros l2 H; [exact H|].
  cbn [app] in H. rewrite adjacent_first in H.
  apply orb_false_iff in H. apply IH. apply H.
Qed.

Lemma adjacent_app_left : forall a b l1 l2,
  adjacent a b (l1 ++ l2) = false -> adjacent a b l1 = false.
Proof.
  intros a b. induction l1 as [|x l1 IH]; intros l2 H; [reflexivity|].
  cbn [app] in H. rewrite adjacent_first in *.
  apply orb_false_iff in H. destruct H as [H1 H2].
  rewrite (IH l2 H2), orb_false_r.
  destruct l1 as [|y l1]; [apply andb_false_r|].
  rewrite first_in_app in H1 by discriminate. exact H1.
Qed.

Lemma rstrip_prefix : forall s, exists ws, s = rstrip s ++ ws.
Proof.
  intros s. unfold rstrip. destruct (lstrip_suffix (rev s)) as [ws H].
  exists (rev ws). rewrite <- rev_app_distr, <- H, rev_involutive. reflexivity.
Qed.

Lemma strip_adjacent : forall a b s,
  adjacent a b s = false -> adjacent a b (strip s) = false.
Proof.
  intros a b s H. unfold strip.
  destruct (lstrip_suffix s) as [ws1 H1].
  destruct (rstrip_prefix (lstrip s)) as [ws2 H2].
  rewrite H1 in H. apply adjacent_app_right in H.
  rewrite H2 in H. apply adjacent_app_left in H. exact H.
Qed.

Lemma strip_length : forall s, length (strip s) <= length s.
Proof.
  intros s. unfold strip.
  destruct (lstrip_suffix s) as [ws1 H1].
  destruct (rstrip_prefix (lstrip s)) as [ws2 H2].
  apply (f_equal (@length cp)) in H1, H2. rewrite length_app in H1, H2. lia.
Qed.

Lemma strip_fixed : forall s, strip (strip s) = strip s.
Proof.
  intros s. destruct (strip s) as [|c r] eqn:E; [reflexivity|].
  rewrite <- E. apply tidy_strip. apply strip_tidy. rewrite E. reflexivity.
Qed.

Lemma collapse_from_length : forall s skip,
  length (collapse_from s skip) <= length s.
Proof.
  induction s as [|c s IH]; intros skip; [cbn; lia|].
  cbn [collapse_from]. destruct skip as [|n].
  - destruct (isspace c); cbn [app space length];
      [specialize (IH (prefix_len isspace s)) | specialize (IH 0)];
      cbn in *; lia.
  - specialize (IH n). cbn [length]. lia.
Qed.

Lemma keeps_lines_length : forall r s, keeps_lines r s -> length r <= length s.
Proof.
  intros r s H. induction H; cbn [length]; lia.
Qed.

Lemma keeps_lines_In : forall r s x, keeps_lines r s -> In x r -> In x s.
Proof.
  intros r s x H. induction H as [| c r s H IH | c r s Hd H IH]; intros Hin.
  - exact Hin.
  - destruct Hin as [<- | Hin]; [left; reflexivity | right; apply IH; exact Hin].
  - right. apply IH. exact Hin.
Qed.

(** Without a language code [clean_text] returns a text that [strip]
    leaves as it is, in which no two whitespace characters stand
    together and the only whitespace is the space, that is no longer than
    the input and made of its characters and spaces. *)
Theorem clean_text_normalises :
  forall text : pystr,
    exists out,
      clean_text text None = Ok out /\
      strip out = out /\
      adjacent isspace isspace out = false /\
      (forall c, In c out -> isspace c = true -> c = 32%N) /\
      length out <= length text /\
      (forall c, In c out -> In c text \/ c = 32%N).
Proof.
  intros text. eexists. split; [reflexivity|].
  destruct (remove_spans_lines text) as [K _].
  split; [apply strip_fixed|]. split; [|split; [|split]].
  - apply strip_adjacent. unfold normalize_whitespace, sub.
    rewrite sub_from_spaces. apply collapse_from_runs.
  - intros c Hin Hc. apply strip_incl in Hin.
    destruct (normalize_whitespace_spaces _ _ Hin) as [E | E];
      [congruence | exact E].
  - eapply Nat.le_trans; [apply strip_length|].
    unfold normalize_whitespace, sub. rewrite sub_from_spaces.
    eapply Nat.le_trans; [apply collapse_from_length|].
    apply keeps_lines_length. exact K.
  - intros c Hin. apply strip_incl in Hin.
    destruct (sub_chars _ _ _ _ Hin) as [H | H].
    + left. apply (keeps_lines_In _ _ _ K H).
    + right. destruct H as [<- | []]. reflexivity.
Qed.

(** *** The ends of the text after the language-specific substitutions *)

Lemma class_group_at : forall i b adv prev s n caps,
  class_group i b adv (MState prev s n caps) =
  match s with
  | e :: rest =>
      if b e
      then Some (MState (Some e) rest (S n) ((i, [e]) :: caps))
      else None
  | [] => None
  end.
Proof.
  intros i b adv prev s n caps. unfold class_group.
  cbn [run m_rest m_len m_caps m_prev].
  destruct s as [|e rest]; [reflexivity|].
  destruct (b e); [|reflexivity].
  cbn [m_len m_rest m_prev m_caps Nat.eqb]. rewrite andb_false_r.
  replace (S n - n) with 1 by lia. reflexivity.
Qed.

Lemma greedy_class_group : forall i b adv s prev n caps m,
  greedy isspace s prev n caps (class_group i b adv) = Some m ->
  exists j,
    j < length s /\ m_len m = S (n + j) /\
    m_caps m = (i, [nth j s 0%N]) :: caps.
Proof.
  intros i b adv. induction s as [|c s IH]; intros prev n caps m H;
    cbn [greedy] in H.
  - rewrite class_group_at in H. discriminate H.
  - assert (class_group i b adv (MState prev (c :: s) n caps) = Some m ->
            exists j, j < length (c :: s) /\ m_len m = S (n + j) /\
                      m_caps m = (i, [nth j (c :: s) 0%N]) :: caps) as Hhere.
    { intros Hk. rewrite class_group_at in Hk.
      destruct (b c); [|discriminate Hk]. injection Hk as <-.
      exists 0. cbn [length m_len m_caps nth]. repeat split; lia. }
    destruct (isspace c); [|apply Hhere; exact H].
    destruct (greedy isspace s (Some c) (S n) caps (class_group i b adv))
      as [m'|] eqn:E; [|apply Hhere; exact H].
    injection H as <-. destruct (IH _ _ _ _ E) as [j [Hj [Hlen Hcaps]]].
    exists (S j). cbn [length nth]. repeat split; [lia | lia | exact Hcaps].
Qed.

Lemma match_at_spaced_pair : forall a b prev s adv m,
  match_at (re_spaced_pair a b) prev s adv = Some m ->
  exists c s' j,
    s = c :: s' /\ S j < length s /\ m_len m = S (S j) /\
    expand t_12 m = [c; nth (S j) s 0%N].
Proof.
  intros a b prev s adv m H. unfold match_at, re_spaced_pair in H.
  cbn [run m_rest m_len m_caps m_prev] in H.
  destruct s as [|c s']; [discriminate H|].
  destruct (a c); [|discriminate H].
  cbn [m_rest m_len m_caps m_prev Nat.sub firstn] in H.
  destruct s' as [|w s'']; [discriminate H|].
  destruct (isspace w); [|discriminate H].
  destruct (greedy_class_group 2 b adv s'' (Some w) 2 [(1, [c])] m H)
    as [j [Hj [Hlen Hcaps]]].
  exists c, (w :: s''), (S j). cbn [length nth]. repeat split; try lia.
  unfold expand, t_12. cbn [map concat]. rewrite Hcaps.
  cbn [group Nat.eqb]. reflexivity.
Qed.

Lemma spaced_pair_keeps_end : forall a b,
  replacement_keeps_end (re_spaced_pair a b) t_12.
Proof.
  intros a b prev s adv m H.
  destruct (match_at_spaced_pair _ _ _ _ _ _ H)
    as [c [s' [j [-> [Hj [Hlen Hex]]]]]].
  rewrite Hlen. repeat split; try lia.
  exists [c]. rewrite Hex. reflexivity.
Qed.

Lemma sub_trimmed : forall r t s,
  replacement_keeps_end r t ->
  (forall c s' m, match_at r None (c :: s') false = Some m ->
                  1 <= m_len m /\ exists o, expand t m = c :: o) ->
  s = [] \/ tidy s = true ->
  sub r t s = [] \/ tidy (sub r t s) = true.
Proof.
  intros r t s Hend Hstart [-> | H].
  - left. unfold sub. cbn [sub_from].
    rewrite (no_match_at_end r t Hend). reflexivity.
  - right. unfold tidy in *. apply andb_true_iff in H. destruct H as [Hs He].
    apply andb_true_iff. split.
    + destruct (starts_clean_cons _ Hs) as [c [rest [-> Hc]]].
      apply (sub_keeps_start _ _ _ _ Hc). apply Hstart.
    + apply sub_keeps_end; assumption.
Qed.

Lemma sub_spaced_pair_trimmed : forall a b s,
  s = [] \/ tidy s = true ->
  sub (re_spaced_pair a b) t_12 s = [] \/
  tidy (sub (re_spaced_pair a b) t_12 s) = true.
Proof.
  intros a b s. apply sub_trimmed; [apply spaced_pair_keeps_end|].
  intros c s' m H.
  destruct (match_at_spaced_pair _ _ _ _ _ _ H)
    as [c' [s'' [j [E [Hj [Hlen Hex]]]]]].
  injection E as <- <-. split; [lia|]. eexists. exact Hex.
Qed.

Lemma sub_pair_trimmed : forall a b s,
  s = [] \/ tidy s = true ->
  sub (re_pair a b) t_1_2 s = [] \/ tidy (sub (re_pair a b) t_1_2 s) = true.
Proof.
  intros a b s. apply sub_trimmed; [apply pair_keeps_end|].
  intros c s' m H.
  destruct (match_at_pair _ _ _ _ _ _ H) as [c' [d [s'' [E [Hlen [G1 G2]]]]]].
  injection E as <- _. split; [lia|].
  exists (space ++ [d]). unfold expand, t_1_2. cbn [map concat].
  rewrite G1, G2. reflexivity.
Qed.

Lemma trimmed_strip : forall s, s = [] \/ tidy s = true -> strip s = s.
Proof.
  intros s [-> | H]; [reflexivity | apply tidy_strip; exact H].
Qed.

Lemma strip_trimmed : forall s, strip s = [] \/ tidy (strip s) = true.
Proof.
  intros s. destruct (strip s) as [|c r] eqn:E; [left; reflexivity|].
  right. rewrite <- E. apply strip_tidy. rewrite E. reflexivity.
Qed.

(** Whatever the language code, the text [clean_text] returns is empty
    or begins and ends with a character other than whitespace, so [strip]
    leaves it as it is: the substitutions for 'zh' and 'ja', which run
    after the trimming, keep the first and the last character of the
    text.  [clean_text] raises only with the code 'ko', whose pattern
    does not compile. *)
Theorem clean_text_is_trimmed :
  forall (text : pystr) (language_code : option pystr),
    match clean_text text language_code with
    | Ok out => (out = [] \/ tidy out = true) /\ strip out = out
    | Raise e => language_code = Some (lit "ko") /\ e = ReError
    end.
Proof.
  intros text language_code.
  destruct (clean_text text language_code) as [out|e] eqn:E.
  - cut (out = [] \/ tidy out = true);
      [intros Hout; split; [exact Hout | apply trimmed_strip; exact Hout]|].
    unfold clean_text in E.
    pose proof (strip_trimmed (normalize_whitespace (remove_spans text))) as H.
    destruct language_code as [code|]; [|injection E as <-; exact H].
    destruct (truthy code); [|injection E as <-; exact H].
    unfold language_specific_cleaning in E.
    destruct (eqb code (lit "zh")).
    + injection E as <-.
      apply sub_pair_trimmed, sub_pair_trimmed, sub_spaced_pair_trimmed.
      exact H.
    + destruct (eqb code (lit "ja")).
      * injection E as <-. apply sub_spaced_pair_trimmed. exact H.
      * destruct (eqb code (lit "ko")); [discriminate E|].
        injection E as <-. exact H.
  - unfold clean_text in E. destruct language_code as [code|]; [|discriminate E].
    destruct (truthy code); [|discriminate E].
    unfold language_specific_cleaning in E.
    destruct (eqb code (lit "zh")); [discriminate E|].
    destruct (eqb code (lit "ja")); [discriminate E|].
    destruct (eqb code (lit "ko")) eqn:Ek; [|discriminate E].
    apply eqb_eq in Ek. subst code. injection E as <-. split; reflexivity.
Qed.

(** *** The further properties at concrete inputs *)

Lemma extracted_fragments_are_trimmed_witness :
  extract_text_segments (JObj [(lit "wireMagic", JStr (lit "pb3"))]) init_stats
  = (Ok [], set_original_segments 0 init_stats).
Proof.
  apply (proj2 (extracted_fragments_are_trimmed
                  (JObj [(lit "wireMagic", JStr (lit "pb3"))]) init_stats)).
  reflexivity.
Defined.

Lemma remove_duplicates_keeps_fragments_witness :
  fst (remove_duplicates [lit "a"; lit "b"; lit "a"] init_stats)
  = Ok [lit "a"; lit "b"; lit "a"] /\
  removed_duplicates_count
    (snd (remove_duplicates [lit "a"; lit "b"; lit "a"] init_stats)) = 0.
Proof.
  destruct (remove_duplicates_keeps_fragments
              [lit "a"; lit "b"; lit "a"] init_stats)
    as [out [E [_ [_ [_ H]]]]].
  assert (no_adjacent_equal [lit "a"; lit "b"; lit "a"]) as Hd.
  { intros [|[|[|i]]] a b Ha Hb; cbn in Ha, Hb; try discriminate Hb;
      injection Ha as <-; injection Hb as <-; discriminate. }
  destruct (H Hd) as [-> Hn]. split; [exact E | apply Hn; discriminate].
Defined.

Lemma merge_extent_witness :
  merge_consecutive_segments [lit "Hi"; lit "there"] 0
  = [lit "Hi"; lit "there"] /\
  merge_consecutive_segments [lit "A long fragment"; lit "Hi"] 10
  = [lit "A long fragment"; lit "Hi"].
Proof.
  split.
  - apply (proj2 (proj2 (proj2
             (merge_extent [lit "Hi"; lit "there"] 0)))). lia.
  - apply (proj1 (proj2 (proj2
             (merge_extent [lit "A long fragment"; lit "Hi"] 10)))).
    cbn. split; [lia | exact I].
Defined.

Lemma process_statistics_witness :
  process_file ascii_db
    (writable
       (example_events
          [JObj [(key_segs, JArr [fragment (lit "Hello."); fragment (lit "Hello.");
                                  fragment (lit "World")])]]))
    default_options init_stats
  = (Ok (lit "Hello. World"), Stats 3 1 1 0 12 2) /\
  process_file ascii_db
    (read_only
       (example_events
          [JObj [(key_segs, JArr [fragment (lit "Hello."); fragment (lit "Hello.");
                                  fragment (lit "World")])]]))
    default_options init_stats
  = (Raise OSError, Stats 3 1 1 0 12 2) /\
  (let st := snd (process_file ascii_db
         (writable
            (example_events
               [JObj [(key_segs, JArr [fragment (lit "Hello."); fragment (lit "Hello.");
                                       fragment (lit "World")])]]))
         default_options init_stats) in
   processed_segments st + removed_duplicates_count st <= original_segments st).
Proof.
  pose proof (process_statistics ascii_db
    (writable
       (example_events
          [JObj [(key_segs, JArr [fragment (lit "Hello."); fragment (lit "Hello.");
                                  fragment (lit "World")])]]))
    default_options init_stats) as [_ H].
  destruct (process_file ascii_db (writable _) default_options init_stats)
    as [[text|e] st] eqn:E; vm_compute in E.
  - injection E as <- <-. destruct H as [_ [_ [_ [Hd _]]]].
    split; [reflexivity|]. split; [reflexivity|].
    cbv zeta. cbn [snd]. apply Hd; [reflexivity | cbn; lia].
  - discriminate E.
Defined.

(* ================================================================= *)
(** ** The scenarios of the specification *)

Example scenario_deduplicate :
  fst (remove_duplicates [lit "Hello."; lit "Hello."; lit "World"] init_stats)
  = Ok [lit "Hello."; lit "World"].
Proof. reflexivity. Qed.

Example scenario_merge :
  merge_consecutive_segments [lit "Hi"; lit "there, how are you?"] 10
  = [lit "Hi there, how are you?"].
Proof. reflexivity. Qed.

Example scenario_cleanup :
  clean_text (lit "[music] Hello (laughs) world <i>test</i>") None
  = Ok (lit "Hello world test").
Proof. reflexivity. Qed.

Example scenario_zh :
  language_specific_cleaning [20013; 32; 25991]%N (lit "zh")
    = Ok [20013; 25991]%N /\
  language_specific_cleaning (20013%N :: lit "a") (lit "zh")
    = Ok (20013%N :: lit " a").
Proof. split; reflexivity. Qed.

Example scenario_seven_sentences :
  paragraph_groups ascii_db
    [lit "A."; lit "B."; lit "C."; lit "D."; lit "E."; lit "F."; lit "G."]
  = [[lit "A."; lit "B."; lit "C."]; [lit "D."; lit "E."; lit "F."];
     [lit "G."]].
Proof. reflexivity. Qed.
